(** * orderedlist: key-value pairs kept in ascending order of value

    A shallow embedding of [orderedlist.go] and the properties of its
    operations.  The Go package keeps two structures in step: a map
    [Bookkeeping] used as a set of keys, and a slice [Rec] of records
    ordered by value.

    Modelling choices:
    - [uint64] values are only ever compared, never computed with, so they
      are numbers in [N]; every [uint64] is one of them.
    - [int] indices are in [Z]; [-1] is the sentinel of the source.  The
      only arithmetic on them is [index+1] and [len-1], far from the
      bounds of a machine [int].
    - a slice is the list of its elements.  Index and slice expressions
      check their bounds as Go does and panic outside them.
    - methods have pointer receivers: a method is a function from the
      receiver's state to an [outcome], either the returned value with the
      receiver's new state, or a panic.
    - [Merge] takes a second pointer, which may be the receiver itself, so
      it is modelled over a store of containers addressed by location. *)

From stdpp Require Import sorting relations strings gmap.

#[local] Set Warnings "-clear-no-such-hyp".

Open Scope Z_scope.

(** ** Data *)

Record RecordT := mkRecord { Key : string; Value : N }.

#[global] Instance RecordT_eq_dec : EqDecision RecordT.
Proof. solve_decision. Defined.

Record OrderedList := mkOrderedList {
  Bookkeeping : gmap string bool;
  Rec : list RecordT
}.

(** The zero value [Record{}]. *)
Definition zero_record : RecordT := mkRecord "" 0%N.

(** A Go [error] is [nil] or a value carrying a message. *)
Definition error := option string.
Definition nil_error : error := None.
Definition errors_New (msg : string) : error := Some msg.

(** The two messages of the package, under the names the specification
    gives them. *)
Definition DuplicateKeyError : error := errors_New "key already exists".
Definition KeyNotFoundError : error := errors_New "key does not exists".

(** ** Panics and outcomes *)

Inductive panic :=
  | IndexOutOfRange (i len : Z)
  | SliceBoundsOutOfRange (i len : Z)
  | NilDereference.

Inductive outcome (S A : Type) :=
  | Returns (a : A) (s : S)
  | Panics (p : panic).
Arguments Returns {S A} a s.
Arguments Panics {S A} p.

Definition M (A : Type) : Type := OrderedList → outcome OrderedList A.

Definition ret {S A} (a : A) : S → outcome S A := λ s, Returns a s.
Definition bind {S A B} (m : S → outcome S A) (k : A → S → outcome S B)
  : S → outcome S B :=
  λ s, match m s with
       | Returns a s' => k a s'
       | Panics p => Panics p
       end.
Definition throw {S A} (p : panic) : S → outcome S A := λ _, Panics p.

Notation "'let*' x := m 'in' k" := (bind m (λ x, k))
  (at level 10, x pattern, m at level 100, k at level 200).
Notation "'run' m 'in' k" := (bind m (λ _, k))
  (at level 10, m at level 100, k at level 200).

(** ** Slices and maps as Go reads and writes them *)

Definition len {A} (s : list A) : Z := Z.of_nat (length s).

(** [s[i]] as a value. *)
Definition index_get {A} (s : list A) (i : Z) : panic + A :=
  match decide (0 ≤ i), s !! Z.to_nat i with
  | left _, Some x => inr x
  | _, _ => inl (IndexOutOfRange i (len s))
  end.

(** [s[i] = x]. *)
Definition index_set {A} (s : list A) (i : Z) (x : A) : panic + list A :=
  if decide (0 ≤ i < len s) then inr (<[Z.to_nat i := x]> s)
  else inl (IndexOutOfRange i (len s)).

(** [s[i:]] and [s[:i]].  The upper bound of [s[:i]] is [cap(s)] in Go;
    the model takes [len(s)], which is never larger. *)
Definition slice_from {A} (s : list A) (i : Z) : panic + list A :=
  if decide (0 ≤ i ≤ len s) then inr (drop (Z.to_nat i) s)
  else inl (SliceBoundsOutOfRange i (len s)).
Definition slice_to {A} (s : list A) (i : Z) : panic + list A :=
  if decide (0 ≤ i ≤ len s) then inr (take (Z.to_nat i) s)
  else inl (SliceBoundsOutOfRange i (len s)).

(** [copy(s[off:], src)] seen from [s]: the first [min (len s - off)
    (len src)] elements of [src] overwrite [s] from offset [off] on.  Go
    copies as if through a temporary, so [src] may overlap [s]. *)
Definition copy_at {A} (s : list A) (off : nat) (src : list A) : list A :=
  take off s ++ take (length s - off) src ++ drop (off + length src) s.

(** [m[key]] on a [map[string]bool]: the zero value when [key] is absent. *)
Definition map_get (m : gmap string bool) (key : string) : bool :=
  default false (m !! key).

(** Lifting of a bounds-checked expression into a method body. *)
Definition check {S A} (r : panic + A) : S → outcome S A :=
  match r with
  | inr a => ret a
  | inl p => throw p
  end.

Definition get_Rec : M (list RecordT) := λ ol, Returns (Rec ol) ol.
Definition set_Rec (r : list RecordT) : M unit :=
  λ ol, Returns tt (mkOrderedList (Bookkeeping ol) r).
Definition get_Bookkeeping : M (gmap string bool) :=
  λ ol, Returns (Bookkeeping ol) ol.
Definition set_Bookkeeping (b : gmap string bool) : M unit :=
  λ ol, Returns tt (mkOrderedList b (Rec ol)).

(** ** The package *)

(** [New]. *)
Definition New : OrderedList := mkOrderedList ∅ [].

(** [getPosition]: the loop over [ol.Rec], [i] being the loop index. *)
Fixpoint getPosition_loop (value : N) (recs : list RecordT) (i : Z) : Z :=
  match recs with
  | [] => -1
  | record :: rest =>
      if decide (value ≤ Value record)%N then i
      else getPosition_loop value rest (i + 1)
  end.

Definition getPosition (value : N) : M Z :=
  let* recs := get_Rec in ret (getPosition_loop value recs 0).

(** [getIndexByKey]. *)
Fixpoint getIndexByKey_loop (key : string) (recs : list RecordT) (i : Z)
  : Z * error :=
  match recs with
  | [] => (-1, KeyNotFoundError)
  | record :: rest =>
      if decide (Key record = key) then (i, nil_error)
      else getIndexByKey_loop key rest (i + 1)
  end.

Definition getIndexByKey (key : string) : M (Z * error) :=
  let* recs := get_Rec in ret (getIndexByKey_loop key recs 0).

(** [Insert].  The second branch is the three statements of the source:
    [append] of a zero record, [copy] of the tail one slot up, and the
    assignment at [index]. *)
Definition Insert (key : string) (value : N) : M error :=
  let* bk := get_Bookkeeping in
  if map_get bk key then ret DuplicateKeyError
  else
    let* index := getPosition value in
    run (if decide (index = -1) then
           let* recs := get_Rec in
           set_Rec (recs ++ [mkRecord key value])
         else
           let* recs := get_Rec in
           run set_Rec (recs ++ [zero_record]) in
           let* recs := get_Rec in
           let* _ := check (slice_from recs (index + 1)) in
           let* src := check (slice_from recs index) in
           run set_Rec (copy_at recs (Z.to_nat (index + 1)) src) in
           let* recs := get_Rec in
           let* recs' := check (index_set recs index (mkRecord key value)) in
           set_Rec recs') in
    let* bk := get_Bookkeeping in
    run set_Bookkeeping (<[key := true]> bk) in
    ret nil_error.

(** [Get]. *)
Definition Get (key : string) : M (N * error) :=
  let* (index, err) := getIndexByKey key in
  if decide (err ≠ nil_error) then ret (0%N, err)
  else
    let* recs := get_Rec in
    let* record := check (index_get recs index) in
    ret (Value record, nil_error).

(** [GetLowest] and [GetHighest]: no check before the index expression. *)
Definition GetLowest : M N :=
  let* recs := get_Rec in
  let* record := check (index_get recs 0) in
  ret (Value record).

Definition GetHighest : M N :=
  let* recs := get_Rec in
  let* record := check (index_get recs (len recs - 1)) in
  ret (Value record).

(** [Remove]. *)
Definition Remove (key : string) : M error :=
  let* (index, err) := getIndexByKey key in
  if decide (err ≠ nil_error) then ret err
  else
    let* recs := get_Rec in
    let* front := check (slice_to recs index) in
    let* back := check (slice_from recs (index + 1)) in
    run set_Rec (front ++ back) in
    let* bk := get_Bookkeeping in
    run set_Bookkeeping (delete key bk) in
    ret nil_error.

(** [Update]. *)
Definition Update (key : string) (value : N) : M error :=
  let* err := Remove key in
  if decide (err ≠ nil_error) then ret err
  else
    let* err := Insert key value in
    if decide (err ≠ nil_error) then ret err
    else ret nil_error.

(** ** Containers behind pointers *)

(** A program holds its containers in variables and passes their
    addresses to the methods.  A store maps a location to the container
    held there; a location outside the store is a nil pointer.  Containers
    made by [New] and changed through the methods never share a map or a
    backing array, so each location holds its own state. *)
Definition loc := positive.
Abbreviation store := (gmap loc OrderedList).

(** A method call on the receiver at location [ol]. *)
Definition call {A} (ol : loc) (m : M A) : store → outcome store A :=
  λ σ, match σ !! ol with
       | None => Panics NilDereference
       | Some o =>
           match m o with
           | Returns a o' => Returns a (<[ol := o']> σ)
           | Panics p => Panics p
           end
       end.

(** [Merge].  The range expression [source.Rec] is evaluated once, before
    the loop; the error of each [Insert] is dropped.  When [source] is the
    receiver itself the loop runs over the receiver's own backing array;
    the list taken before the loop is what the loop reads as long as no
    [Insert] has written to the receiver, which is the case in every run
    on a reachable store (see [Merge_self]). *)
Fixpoint Merge_loop (ol : loc) (recs : list RecordT)
  : store → outcome store unit :=
  match recs with
  | [] => ret tt
  | record :: rest =>
      run call ol (Insert (Key record) (Value record)) in
      Merge_loop ol rest
  end.

Definition Merge (ol source : loc) : store → outcome store unit :=
  λ σ, match σ !! source with
       | None => Panics NilDereference
       | Some src => Merge_loop ol (Rec src) σ
       end.

(** One step of a client program: a variable receives [New()], or a
    method is called and returns (with or without an error). *)
Inductive step : store → store → Prop :=
  | step_New σ p :
      step σ (<[p := New]> σ)
  | step_Insert σ p key value err σ' :
      call p (Insert key value) σ = Returns err σ' → step σ σ'
  | step_Get σ p key res σ' :
      call p (Get key) σ = Returns res σ' → step σ σ'
  | step_GetLowest σ p v σ' :
      call p GetLowest σ = Returns v σ' → step σ σ'
  | step_GetHighest σ p v σ' :
      call p GetHighest σ = Returns v σ' → step σ σ'
  | step_Remove σ p key err σ' :
      call p (Remove key) σ = Returns err σ' → step σ σ'
  | step_Update σ p key value err σ' :
      call p (Update key value) σ = Returns err σ' → step σ σ'
  | step_Merge σ p q σ' :
      Merge p q σ = Returns tt σ' → step σ σ'.

(** The stores a program can reach, and the containers found in them. *)
Definition reachable_store (σ : store) : Prop := rtc step ∅ σ.
Definition reachable (ol : OrderedList) : Prop :=
  ∃ σ p, reachable_store σ ∧ σ !! p = Some ol.

(** ** The invariants of the data model *)

Definition keys (ol : OrderedList) : list string := Key <$> Rec ol.

Definition le_value (a b : RecordT) : Prop := (Value a ≤ Value b)%N.

(** I1, for all pairs; adjacent pairs follow. *)
Definition I1 (ol : OrderedList) : Prop := StronglySorted le_value (Rec ol).
(** I2, with the marker of every key of the map being [true]. *)
Definition I2 (ol : OrderedList) : Prop :=
  dom (Bookkeeping ol) = list_to_set (keys ol) ∧
  map_Forall (λ _ b, b = true) (Bookkeeping ol).
(** I3. *)
Definition I3 (ol : OrderedList) : Prop := NoDup (keys ol).

(** What a method leaves in the receiver, for the replay in [Merge]. *)
Definition exec {A} (m : M A) (ol : OrderedList) : OrderedList :=
  match m ol with
  | Returns _ ol' => ol'
  | Panics _ => ol
  end.

(** ** What the methods amount to

    The loops stop at the first record that meets their test; [list_find]
    names that record and its index.  The definitions below state, without
    the bounds checks and the slice surgery, the state each method leaves;
    the lemmas of the next part prove that the methods compute them. *)

Definition insert_at {A} (i : nat) (x : A) (l : list A) : list A :=
  take i l ++ x :: drop i l.

(** The first index whose record has a value not below [value], or the
    length when there is none. *)
Definition position (value : N) (recs : list RecordT) : nat :=
  from_option fst (length recs)
    (list_find (λ r, (value ≤ Value r)%N) recs).

Definition find_key (key : string) (recs : list RecordT)
  : option (nat * RecordT) :=
  list_find (λ r, Key r = key) recs.

Definition Insert_state (key : string) (value : N) (ol : OrderedList)
  : OrderedList :=
  if map_get (Bookkeeping ol) key then ol
  else mkOrderedList (<[key := true]> (Bookkeeping ol))
         (insert_at (position value (Rec ol)) (mkRecord key value) (Rec ol)).

Definition Remove_state (key : string) (ol : OrderedList) : OrderedList :=
  match find_key key (Rec ol) with
  | Some (i, _) =>
      mkOrderedList (delete key (Bookkeeping ol)) (delete i (Rec ol))
  | None => ol
  end.

(** The sequence after a successful [Insert] and after a successful
    [Remove], by recursion on the sequence; the proofs that two calls
    commute go by induction on these. *)
Fixpoint place (r : RecordT) (recs : list RecordT) : list RecordT :=
  match recs with
  | [] => [r]
  | x :: rest =>
      if decide (Value r ≤ Value x)%N then r :: x :: rest
      else x :: place r rest
  end.

Fixpoint remove_first (key : string) (recs : list RecordT) : list RecordT :=
  match recs with
  | [] => []
  | x :: rest =>
      if decide (Key x = key) then rest else x :: remove_first key rest
  end.

(** The records of a source replayed through [Insert], errors dropped. *)
Definition replay (recs : list RecordT) (ol : OrderedList) : OrderedList :=
  foldl (λ o record, exec (Insert (Key record) (Value record)) o) ol recs.

(** The map holds exactly the keys of the sequence, each marked [true].
    This is I2 in the form the proofs use. *)
Definition consistent (ol : OrderedList) : Prop :=
  ∀ k, Bookkeeping ol !! k =
         if decide (k ∈ keys ol) then Some true else None.

Definition wf (ol : OrderedList) : Prop := I1 ol ∧ consistent ol ∧ I3 ol.

Definition store_wf (σ : store) : Prop := map_Forall (λ _ ol, wf ol) σ.

(** * Lists as slices *)

Section slices.
Context {A : Type}.
Implicit Types l recs : list A.

Lemma copy_shift_split (l1 l2 : list A) x y z :
  <[length l1 := x]>
    (copy_at ((l1 ++ y :: l2) ++ [z]) (S (length l1))
       (drop (length l1) ((l1 ++ y :: l2) ++ [z]))) =
    l1 ++ x :: y :: l2.
Proof.
  unfold copy_at. induction l1 as [|a l1 IH]; simpl.
  - rewrite Nat.sub_0_r, length_app. simpl.
    replace (length l2 + 1)%nat with (S (length l2)) by lia. simpl.
    rewrite take_app_length.
    rewrite drop_ge by (rewrite length_app; simpl; lia).
    by rewrite app_nil_r.
  - f_equal. simpl in IH. exact IH.
Qed.

Lemma copy_shift recs i x z :
  (i < length recs)%nat →
  <[i := x]> (copy_at (recs ++ [z]) (S i) (drop i (recs ++ [z]))) =
    insert_at i x recs.
Proof.
  intros Hi. destruct (lookup_lt_is_Some_2 recs i Hi) as [y Hy].
  unfold insert_at. rewrite (drop_S recs y i Hy).
  pose proof (take_drop_middle recs i y Hy) as Hsplit.
  assert (Hl : length (take i recs) = i) by (rewrite length_take; lia).
  revert Hsplit Hl. generalize (take i recs) (drop (S i) recs).
  intros l1 l2 <- <-. apply copy_shift_split.
Qed.

Lemma insert_at_perm i (x : A) l : insert_at i x l ≡ₚ x :: l.
Proof.
  unfold insert_at. rewrite <- Permutation_middle. by rewrite take_drop.
Qed.

Lemma elem_of_insert_at i (x y : A) l :
  y ∈ insert_at i x l ↔ y = x ∨ y ∈ l.
Proof. by rewrite insert_at_perm, elem_of_cons. Qed.

Lemma StronglySorted_lookup (R : relation A) l i j x y :
  StronglySorted R l → (i < j)%nat →
  l !! i = Some x → l !! j = Some y → R x y.
Proof.
  intros Hs. revert i j.
  induction Hs as [|a l Hs IH Hall]; intros i j Hij Hi Hj; [done|].
  destruct j as [|j]; [lia|]. simpl in Hj.
  destruct i as [|i]; simpl in Hi.
  - injection Hi as <-. by eapply Forall_lookup_1.
  - apply (IH i j); [lia|done..].
Qed.

Lemma filter_all (P : A → Prop) `{!∀ x, Decision (P x)} l :
  Forall P l → filter P l = l.
Proof.
  induction 1 as [|x l Hx _ IH]; [done|].
  by rewrite filter_cons_True, IH.
Qed.

Lemma filter_none (P : A → Prop) `{!∀ x, Decision (P x)} l :
  Forall (λ x, ¬ P x) l → filter P l = [].
Proof.
  induction 1 as [|x l Hx _ IH]; [done|].
  by rewrite filter_cons_False, IH.
Qed.

Lemma filter_ext_in (P Q : A → Prop)
    `{!∀ x, Decision (P x), !∀ x, Decision (Q x)} l :
  (∀ x, x ∈ l → P x ↔ Q x) → filter P l = filter Q l.
Proof.
  induction l as [|x l IH]; intros Hext; [done|].
  rewrite !filter_cons, IH by (intros y Hy; apply Hext; by right).
  destruct (Hext x) as [H1 H2]; [by left|].
  by repeat case_decide; try done; exfalso; auto.
Qed.

End slices.

Lemma fmap_insert_at {A B} (f : A → B) i x l :
  f <$> insert_at i x l = insert_at i (f x) (f <$> l).
Proof.
  unfold insert_at. by rewrite fmap_app, fmap_cons, fmap_take, fmap_drop.
Qed.

(** * What the methods compute *)

(** ** The two loops *)

Lemma getPosition_loop_find value recs i :
  getPosition_loop value recs i =
    match list_find (λ r, (value ≤ Value r)%N) recs with
    | Some (j, _) => i + Z.of_nat j
    | None => -1
    end.
Proof.
  revert i. induction recs as [|r recs IH]; intros i; simpl; [done|].
  case_decide; simpl; [lia|].
  rewrite IH. destruct (list_find _ recs) as [[j x]|]; simpl; lia.
Qed.

Lemma getIndexByKey_loop_find key recs i :
  getIndexByKey_loop key recs i =
    match list_find (λ r, Key r = key) recs with
    | Some (j, _) => (i + Z.of_nat j, nil_error)
    | None => (-1, KeyNotFoundError)
    end.
Proof.
  revert i. induction recs as [|r recs IH]; intros i; simpl; [done|].
  case_decide; simpl; [f_equal; lia|].
  rewrite IH. destruct (list_find _ recs) as [[j x]|]; simpl; [f_equal; lia|done].
Qed.

Lemma position_le value recs : (position value recs ≤ length recs)%nat.
Proof.
  unfold position.
  destruct (list_find _ recs) as [[j x]|] eqn:Hf; simpl; [|lia].
  apply list_find_Some in Hf as (Hj & _). apply lookup_lt_Some in Hj. lia.
Qed.

Lemma position_before value recs j r :
  (j < position value recs)%nat → recs !! j = Some r → (Value r < value)%N.
Proof.
  unfold position. intros Hlt Hj.
  destruct (list_find _ recs) as [[i x]|] eqn:Hf; simpl in Hlt.
  - apply list_find_Some in Hf as (_ & _ & Hmin).
    specialize (Hmin j r Hj Hlt). lia.
  - apply list_find_None in Hf.
    pose proof (Forall_lookup_1 _ _ _ _ Hf Hj) as Hr. simpl in Hr. lia.
Qed.

Lemma position_at value recs r :
  recs !! position value recs = Some r → (value ≤ Value r)%N.
Proof.
  unfold position.
  destruct (list_find _ recs) as [[i x]|] eqn:Hf; simpl.
  - apply list_find_Some in Hf as (Hi & Hx & _). naive_solver.
  - intros Hr. apply lookup_lt_Some in Hr. lia.
Qed.

(** ** Each method as one equation *)

Ltac unfold_method :=
  unfold bind, ret, throw, check, get_Rec, set_Rec, get_Bookkeeping,
    set_Bookkeeping, getPosition, getIndexByKey; simpl.

Lemma Insert_Returns key value ol :
  Insert key value ol =
    Returns (if map_get (Bookkeeping ol) key then DuplicateKeyError
             else nil_error)
            (Insert_state key value ol).
Proof.
  unfold Insert, Insert_state. unfold_method.
  destruct (map_get (Bookkeeping ol) key); [done|].
  rewrite getPosition_loop_find. unfold position.
  destruct (list_find _ (Rec ol)) as [[j r]|] eqn:Hf; simpl.
  - apply list_find_Some in Hf as (Hj & _). apply lookup_lt_Some in Hj.
    rewrite decide_False by lia.
    unfold slice_from, index_set, len. simpl.
    rewrite !decide_True by (rewrite ?length_app; simpl; lia). simpl.
    rewrite decide_True; simpl.
    + replace (Z.to_nat (0 + Z.of_nat j + 1)) with (S j) by lia.
      replace (Z.to_nat (0 + Z.of_nat j)) with j by lia.
      by rewrite copy_shift.
    + unfold copy_at. rewrite !length_app, length_take, !length_app.
      simpl. lia.
  - unfold insert_at. by rewrite take_ge, drop_ge by lia.
Qed.

Lemma Get_Returns key ol :
  Get key ol =
    Returns match find_key key (Rec ol) with
            | Some (_, r) => (Value r, nil_error)
            | None => (0%N, KeyNotFoundError)
            end ol.
Proof.
  unfold Get, find_key. unfold_method.
  rewrite getIndexByKey_loop_find.
  destruct (list_find _ (Rec ol)) as [[j r]|] eqn:Hf; simpl; [|done].
  apply list_find_Some in Hf as (Hj & _).
  unfold index_get. rewrite decide_True by lia.
  replace (Z.to_nat (0 + Z.of_nat j)) with j by lia.
  by rewrite Hj.
Qed.

Lemma Remove_Returns key ol :
  Remove key ol =
    Returns match find_key key (Rec ol) with
            | Some _ => nil_error
            | None => KeyNotFoundError
            end (Remove_state key ol).
Proof.
  unfold Remove, Remove_state, find_key. unfold_method.
  rewrite getIndexByKey_loop_find.
  destruct (list_find _ (Rec ol)) as [[j r]|] eqn:Hf; simpl; [|done].
  apply list_find_Some in Hf as (Hj & _). apply lookup_lt_Some in Hj.
  unfold slice_to, slice_from, len.
  rewrite !decide_True by lia. simpl.
  replace (Z.to_nat (0 + Z.of_nat j + 1)) with (S j) by lia.
  replace (Z.to_nat (0 + Z.of_nat j)) with j by lia.
  by rewrite <- delete_take_drop.
Qed.

Lemma find_key_prefix key recs i r :
  find_key key recs = Some (i, r) → key ∉ Key <$> take i recs.
Proof.
  intros (_ & _ & Hmin)%list_find_Some.
  intros (x & Hx & Hin)%list_elem_of_fmap.
  apply list_elem_of_lookup in Hin as [j Hj].
  pose proof (lookup_lt_Some _ _ _ Hj) as Hlt.
  rewrite length_take in Hlt.
  rewrite lookup_take_lt in Hj by lia. apply (Hmin j x Hj); [lia|done].
Qed.

Lemma Update_Returns key value ol :
  Update key value ol =
    match find_key key (Rec ol) with
    | Some _ => Returns nil_error (Insert_state key value (Remove_state key ol))
    | None => Returns KeyNotFoundError ol
    end.
Proof.
  unfold Update, bind. rewrite Remove_Returns.
  unfold Remove_state.
  destruct (find_key key (Rec ol)) as [[i r]|] eqn:Hf; simpl; [|done].
  rewrite Insert_Returns. unfold Insert_state, map_get. simpl.
  by rewrite lookup_delete_eq.
Qed.

Lemma GetLowest_Returns ol :
  GetLowest ol =
    match Rec ol with
    | first :: _ => Returns (Value first) ol
    | [] => Panics (IndexOutOfRange 0 0)
    end.
Proof. unfold GetLowest. unfold_method. by destruct (Rec ol). Qed.

Lemma GetHighest_Returns ol :
  GetHighest ol =
    match last (Rec ol) with
    | Some final => Returns (Value final) ol
    | None => Panics (IndexOutOfRange (-1) 0)
    end.
Proof.
  unfold GetHighest. unfold_method. unfold index_get, len.
  destruct (Rec ol) as [|r recs] eqn:Hr; [done|].
  rewrite decide_True by (simpl; lia).
  replace (Z.to_nat (Z.of_nat (length (r :: recs)) - 1))
    with (Nat.pred (length (r :: recs))) by (simpl; lia).
  rewrite <- last_lookup.
  destruct (last (r :: recs)) eqn:Hl; [done|]. by apply last_None in Hl.
Qed.

(** * Invariants *)

Lemma consistent_I2 ol : consistent ol → I2 ol.
Proof.
  intros Hc. split.
  - apply set_eq. intros k.
    rewrite elem_of_dom, elem_of_list_to_set, Hc.
    case_decide; split; try done; try (by eauto); by intros [? ?].
  - intros k b. rewrite Hc. case_decide; naive_solver.
Qed.


Lemma consistent_map_get ol k :
  consistent ol → map_get (Bookkeeping ol) k = true ↔ k ∈ keys ol.
Proof.
  intros Hc. unfold map_get. rewrite Hc. case_decide; naive_solver.
Qed.

Lemma consistent_map_get_false ol k :
  consistent ol → map_get (Bookkeeping ol) k = false ↔ k ∉ keys ol.
Proof.
  intros Hc. unfold map_get. rewrite Hc. case_decide; naive_solver.
Qed.

(** ** Views of the sequence at the index a loop stops at *)

Lemma find_key_split key recs i r :
  find_key key recs = Some (i, r) →
  ∃ l1 l2, recs = l1 ++ r :: l2 ∧ length l1 = i ∧ Key r = key ∧
           (key ∉ Key <$> l1) ∧ delete i recs = l1 ++ l2.
Proof.
  intros Hf. pose proof (find_key_prefix _ _ _ _ Hf) as Hnot.
  apply list_find_Some in Hf as (Hi & Hk & _).
  exists (take i recs), (drop (S i) recs).
  pose proof (lookup_lt_Some _ _ _ Hi).
  split_and!; [by rewrite take_drop_middle| |done|done|].
  - rewrite length_take. lia.
  - apply delete_take_drop.
Qed.

Lemma find_key_None key recs : find_key key recs = None ↔ key ∉ Key <$> recs.
Proof.
  unfold find_key. rewrite list_find_None, list.Forall_forall. split.
  - intros Hall (r & -> & Hr)%list_elem_of_fmap. by apply (Hall r).
  - intros Hnot r Hr <-. apply Hnot. by apply list_elem_of_fmap_2.
Qed.

Lemma find_key_is_Some key recs :
  is_Some (find_key key recs) ↔ key ∈ Key <$> recs.
Proof.
  rewrite <- not_eq_None_Some, find_key_None.
  destruct (decide (key ∈ Key <$> recs)); naive_solver.
Qed.

Lemma position_split value recs :
  ∃ l1 l2, recs = l1 ++ l2 ∧ length l1 = position value recs ∧
           Forall (λ r, (Value r < value)%N) l1 ∧
           (∀ r, head l2 = Some r → (value ≤ Value r)%N) ∧
           ∀ x, insert_at (position value recs) x recs = l1 ++ x :: l2.
Proof.
  exists (take (position value recs) recs), (drop (position value recs) recs).
  pose proof (position_le value recs).
  split_and!; [by rewrite take_drop| | | |done].
  - rewrite length_take. lia.
  - apply Forall_lookup_2. intros j r Hj.
    pose proof (lookup_lt_Some _ _ _ Hj) as Hlt. rewrite length_take in Hlt.
    rewrite lookup_take_lt in Hj by lia.
    apply (position_before value recs j); [lia|done].
  - intros r Hr. rewrite head_lookup, lookup_drop, Nat.add_0_r in Hr.
    by apply position_at in Hr.
Qed.

(** ** Every method keeps the invariants *)

#[local] Instance le_value_trans : Transitive le_value.
Proof. intros a b c. unfold le_value. lia. Qed.

Lemma wf_New : wf New.
Proof.
  split_and!.
  - constructor.
  - intros k. unfold keys. simpl. by rewrite lookup_empty.
  - constructor.
Qed.

Lemma Insert_state_I1 key value ol : I1 ol → I1 (Insert_state key value ol).
Proof.
  unfold I1, Insert_state. intros Hs.
  destruct (map_get (Bookkeeping ol) key); [done|]. simpl.
  destruct (position_split value (Rec ol))
    as (l1 & l2 & Hrec & _ & Hlt & Hhd & ->).
  rewrite Hrec in Hs. apply StronglySorted_app in Hs as (Hcross & Hs1 & Hs2).
  apply StronglySorted_app_2; [|done|].
  - intros x1 x2 Hx1 [->|Hx2]%elem_of_cons; [|by apply Hcross].
    pose proof (proj1 (list.Forall_forall _ _) Hlt x1 Hx1) as Hv.
    unfold le_value. simpl in *. lia.
  - constructor; [done|].
    destruct l2 as [|h t]; [constructor|].
    specialize (Hhd h eq_refl).
    apply StronglySorted_cons in Hs2 as [Hht _].
    constructor; [done|].
    eapply Forall_impl; [exact Hht|].
    intros x Hx. unfold le_value in *. simpl. lia.
Qed.

Lemma Insert_state_keys key value ol k :
  map_get (Bookkeeping ol) key = false →
  k ∈ keys (Insert_state key value ol) ↔ k = key ∨ k ∈ keys ol.
Proof.
  unfold Insert_state, keys. intros ->. simpl.
  by rewrite fmap_insert_at, elem_of_insert_at.
Qed.

Lemma Insert_state_wf key value ol : wf ol → wf (Insert_state key value ol).
Proof.
  intros (Hs & Hc & Hn).
  split; [by apply Insert_state_I1|].
  destruct (map_get (Bookkeeping ol) key) eqn:Hget;
    [unfold Insert_state; by rewrite Hget|].
  pose proof (proj1 (consistent_map_get_false ol key Hc) Hget) as Hnew.
  split.
  - intros k. pose proof (Insert_state_keys key value ol k Hget) as Hk.
    unfold Insert_state in *. rewrite Hget in *. simpl.
    rewrite lookup_insert, Hc.
    repeat case_decide; naive_solver.
  - unfold I3, keys, Insert_state. rewrite Hget. simpl.
    rewrite fmap_insert_at, insert_at_perm. by apply NoDup_cons.
Qed.

Lemma Remove_state_I1 key ol : I1 ol → I1 (Remove_state key ol).
Proof.
  unfold I1, Remove_state. intros Hs.
  destruct (find_key key (Rec ol)) as [[i r]|] eqn:Hf; [|done]. simpl.
  destruct (find_key_split _ _ _ _ Hf) as (l1 & l2 & Hrec & _ & _ & _ & ->).
  rewrite Hrec in Hs. apply StronglySorted_app in Hs as (Hcross & Hs1 & Hs2).
  apply StronglySorted_cons in Hs2 as [_ Hs2].
  apply StronglySorted_app_2; [|done..].
  intros x1 x2 Hx1 Hx2. apply Hcross; [done|]. by apply elem_of_cons; right.
Qed.

Lemma Remove_state_keys key ol k :
  I3 ol → k ∈ keys (Remove_state key ol) ↔ k ≠ key ∧ k ∈ keys ol.
Proof.
  unfold I3, Remove_state, keys. intros Hn.
  destruct (find_key key (Rec ol)) as [[i r]|] eqn:Hf; simpl.
  - destruct (find_key_split _ _ _ _ Hf) as (l1 & l2 & Hrec & _ & Hk & _ & ->).
    rewrite Hrec in *. rewrite fmap_app, fmap_cons, Hk in Hn.
    apply NoDup_app in Hn as (_ & Hdis & Hn2).
    apply NoDup_cons in Hn2 as [Hnot _].
    specialize (Hdis k). rewrite elem_of_cons in Hdis.
    rewrite !fmap_app, fmap_cons, !elem_of_app, elem_of_cons, Hk.
    split; [|naive_solver].
    intros [H1|H2]; (split; [intros ->|]); naive_solver.
  - apply find_key_None in Hf. naive_solver.
Qed.

Lemma Remove_state_wf key ol : wf ol → wf (Remove_state key ol).
Proof.
  intros (Hs & Hc & Hn).
  split; [by apply Remove_state_I1|].
  split.
  - intros k. pose proof (Remove_state_keys key ol k Hn) as Hk.
    unfold Remove_state in *.
    destruct (find_key key (Rec ol)) as [[i r]|] eqn:Hf; [|done]. simpl.
    rewrite lookup_delete, Hc.
    repeat case_decide; naive_solver.
  - unfold I3, keys, Remove_state.
    destruct (find_key key (Rec ol)) as [[i r]|] eqn:Hf; [|done]. simpl.
    rewrite list_fmap_delete. eapply sublist_NoDup; [exact Hn|apply sublist_delete].
Qed.

Lemma exec_Insert key value ol :
  exec (Insert key value) ol = Insert_state key value ol.
Proof. unfold exec. by rewrite Insert_Returns. Qed.

Lemma exec_Remove key ol : exec (Remove key) ol = Remove_state key ol.
Proof. unfold exec. by rewrite Remove_Returns. Qed.

Lemma exec_Update key value ol :
  exec (Update key value) ol =
    match find_key key (Rec ol) with
    | Some _ => Insert_state key value (Remove_state key ol)
    | None => ol
    end.
Proof.
  unfold exec. rewrite Update_Returns. by destruct (find_key key (Rec ol)).
Qed.

(** ** Stores *)

Lemma call_Returns {A} p (m : M A) (σ σ' : store) a :
  call p m σ = Returns a σ' →
  ∃ o o', σ !! p = Some o ∧ m o = Returns a o' ∧ σ' = <[p := o']> σ.
Proof.
  unfold call. destruct (σ !! p) as [o|]; [|done].
  destruct (m o) as [a' o'|] eqn:Hm; [|done].
  intros [= <- <-]. eauto.
Qed.

Lemma call_exec {A} p (m : M A) (σ σ' : store) a :
  call p m σ = Returns a σ' →
  ∃ o, σ !! p = Some o ∧ σ' = <[p := exec m o]> σ.
Proof.
  intros (o & o' & Hp & Hm & ->)%call_Returns.
  exists o. unfold exec. by rewrite Hm.
Qed.

Lemma Merge_loop_Returns p recs (σ : store) o :
  σ !! p = Some o →
  Merge_loop p recs σ = Returns tt (<[p := replay recs o]> σ).
Proof.
  revert σ o. induction recs as [|r recs IH]; intros σ o Hp; simpl.
  - unfold ret. by rewrite insert_id.
  - unfold bind, call. rewrite Hp, Insert_Returns.
    rewrite (IH _ (Insert_state (Key r) (Value r) o))
      by apply lookup_insert_eq.
    by rewrite insert_insert_eq, exec_Insert.
Qed.

Lemma Merge_Returns p q (σ : store) o src :
  σ !! p = Some o → σ !! q = Some src →
  Merge p q σ = Returns tt (<[p := replay (Rec src) o]> σ).
Proof.
  intros Hp Hq. unfold Merge. rewrite Hq. by apply Merge_loop_Returns.
Qed.

Lemma Merge_loop_inv p recs (σ σ' : store) :
  Merge_loop p recs σ = Returns tt σ' →
  σ' = σ ∨ ∃ o, σ !! p = Some o ∧ σ' = <[p := replay recs o]> σ.
Proof.
  destruct (σ !! p) as [o|] eqn:Hp.
  - rewrite (Merge_loop_Returns p recs σ o Hp). intros [= <-]. eauto.
  - destruct recs as [|r recs]; simpl.
    + intros [= <-]. by left.
    + unfold bind, call. by rewrite Hp.
Qed.

Lemma replay_wf recs ol : wf ol → wf (replay recs ol).
Proof.
  revert ol. induction recs as [|r recs IH]; intros ol Hwf; simpl; [done|].
  apply IH. rewrite exec_Insert. by apply Insert_state_wf.
Qed.

Lemma store_wf_insert p ol (σ : store) :
  wf ol → store_wf σ → store_wf (<[p := ol]> σ).
Proof. intros. by apply map_Forall_insert_2. Qed.

Lemma step_wf σ σ' : step σ σ' → store_wf σ → store_wf σ'.
Proof.
  intros Hstep Hwf. destruct Hstep as
    [σ p|σ p key value err σ' Hc|σ p key res σ' Hc|σ p v σ' Hc|σ p v σ' Hc
    |σ p key err σ' Hc|σ p key value err σ' Hc|σ p q σ' Hc].
  - apply store_wf_insert; [apply wf_New|done].
  - apply call_exec in Hc as (o & Hp & ->).
    apply store_wf_insert; [|done].
    rewrite exec_Insert. apply Insert_state_wf. by apply (Hwf p).
  - apply call_Returns in Hc as (o & o' & Hp & Hm & ->).
    rewrite Get_Returns in Hm. injection Hm as _ <-.
    apply store_wf_insert; [|done]. by apply (Hwf p).
  - apply call_Returns in Hc as (o & o' & Hp & Hm & ->).
    rewrite GetLowest_Returns in Hm.
    destruct (Rec o); [done|]. injection Hm as _ <-.
    apply store_wf_insert; [|done]. by apply (Hwf p).
  - apply call_Returns in Hc as (o & o' & Hp & Hm & ->).
    rewrite GetHighest_Returns in Hm.
    destruct (last (Rec o)); [|done]. injection Hm as _ <-.
    apply store_wf_insert; [|done]. by apply (Hwf p).
  - apply call_exec in Hc as (o & Hp & ->).
    apply store_wf_insert; [|done].
    rewrite exec_Remove. apply Remove_state_wf. by apply (Hwf p).
  - apply call_exec in Hc as (o & Hp & ->).
    apply store_wf_insert; [|done].
    rewrite exec_Update. pose proof (Hwf p o Hp) as Ho. simpl in Ho.
    destruct (find_key key (Rec o)); [|done].
    by apply Insert_state_wf, Remove_state_wf.
  - unfold Merge in Hc. destruct (σ !! q) as [src|]; [|done].
    apply Merge_loop_inv in Hc as [->|(o & Hp & ->)]; [done|].
    apply store_wf_insert; [|done]. apply replay_wf. by apply (Hwf p).
Qed.

Lemma reachable_store_wf σ : reachable_store σ → store_wf σ.
Proof.
  unfold reachable_store. revert σ.
  apply (rtc_ind_r store_wf).
  - apply map_Forall_empty.
  - intros σ1 σ2 _ Hstep IH. by eapply step_wf.
Qed.

Lemma reachable_wf ol : reachable ol → wf ol.
Proof.
  intros (σ & p & Hr & Hp). by apply (reachable_store_wf σ Hr p).
Qed.

(** ** Reachable containers *)

Lemma reachable_New : reachable New.
Proof.
  exists (<[1%positive := New]> ∅), 1%positive. split.
  - apply rtc_once, step_New.
  - apply lookup_insert_eq.
Qed.

Lemma reachable_step ol ol' :
  reachable ol →
  (∀ (σ : store) p, σ !! p = Some ol → step σ (<[p := ol']> σ)) →
  reachable ol'.
Proof.
  intros (σ & p & Hr & Hp) Hstep.
  exists (<[p := ol']> σ), p. split; [|apply lookup_insert_eq].
  eapply rtc_r; [exact Hr|]. by apply Hstep.
Qed.

Lemma reachable_Insert key value ol :
  reachable ol → reachable (exec (Insert key value) ol).
Proof.
  intros Hr. apply (reachable_step ol); [done|]. intros σ p Hp.
  eapply (step_Insert σ p key value). unfold call.
  by rewrite Hp, Insert_Returns, exec_Insert.
Qed.

Lemma reachable_Remove key ol :
  reachable ol → reachable (exec (Remove key) ol).
Proof.
  intros Hr. apply (reachable_step ol); [done|]. intros σ p Hp.
  eapply (step_Remove σ p key). unfold call.
  by rewrite Hp, Remove_Returns, exec_Remove.
Qed.

Lemma reachable_Update key value ol :
  reachable ol → reachable (exec (Update key value) ol).
Proof.
  intros Hr. apply (reachable_step ol); [done|]. intros σ p Hp.
  apply (step_Update σ p key value
           (if find_key key (Rec ol) is Some _ then nil_error
            else KeyNotFoundError)).
  unfold call. rewrite Hp, exec_Update, Update_Returns.
  by destruct (find_key key (Rec ol)).
Qed.




(** ** Lookup by key *)

Lemma find_key_NoDup recs i r :
  NoDup (Key <$> recs) → recs !! i = Some r →
  find_key (Key r) recs = Some (i, r).
Proof.
  intros Hn Hi. apply list_find_Some. split_and!; [done..|].
  intros j y Hj Hlt Heq.
  assert (j = i); [|lia].
  apply (NoDup_lookup (Key <$> recs) j i (Key r)); [done|..].
  - by rewrite list_lookup_fmap, Hj, <- Heq.
  - by rewrite list_lookup_fmap, Hi.
Qed.

Lemma Get_elem_of ol r :
  NoDup (keys ol) → r ∈ Rec ol →
  Get (Key r) ol = Returns (Value r, nil_error) ol.
Proof.
  intros Hn [i Hi]%list_elem_of_lookup.
  by rewrite Get_Returns, (find_key_NoDup _ i r).
Qed.

Lemma Get_absent ol k :
  k ∉ keys ol → Get k ol = Returns (0%N, KeyNotFoundError) ol.
Proof.
  intros Hk%find_key_None. by rewrite Get_Returns, Hk.
Qed.

Lemma Get_found_inv ol k v :
  Get k ol = Returns (v, nil_error) ol →
  ∃ r, r ∈ Rec ol ∧ Key r = k ∧ Value r = v.
Proof.
  rewrite Get_Returns.
  destruct (find_key k (Rec ol)) as [[i r]|] eqn:Hf; [|done].
  intros [= <-]. apply list_find_Some in Hf as (Hi & Hk & _).
  exists r. split_and!; [|done..]. by eapply list_elem_of_lookup_2.
Qed.

(** ** The sequence after [Update] *)

Lemma filter_other_keys key recs i r :
  NoDup (Key <$> recs) → find_key key recs = Some (i, r) →
  filter (λ x, Key x ≠ key) recs = delete i recs.
Proof.
  intros Hn Hf.
  destruct (find_key_split _ _ _ _ Hf) as (l1 & l2 & -> & _ & Hk & _ & ->).
  rewrite fmap_app, fmap_cons, Hk in Hn.
  apply NoDup_app in Hn as (_ & Hdis & Hn2).
  apply NoDup_cons in Hn2 as [Hnot _].
  rewrite filter_app, filter_cons_False by (intros Hne; by apply Hne).
  rewrite !filter_all; [done|..]; apply list.Forall_forall; intros x Hx Heq.
  - apply Hnot. rewrite <- Heq. by apply list_elem_of_fmap_2.
  - apply (Hdis key); [|by left]. rewrite <- Heq. by apply list_elem_of_fmap_2.
Qed.

Lemma position_rank value recs :
  StronglySorted le_value recs →
  position value recs = length (filter (λ r, (Value r < value)%N) recs).
Proof.
  intros Hs.
  destruct (position_split value recs) as (l1 & l2 & Hrec & <- & Hlt & Hhd & _).
  rewrite Hrec in *. apply StronglySorted_app_1_r in Hs.
  rewrite filter_app, (filter_all _ l1), (filter_none _ l2), app_nil_r; [done| |done].
  destruct l2 as [|h t]; [constructor|].
  specialize (Hhd h eq_refl). apply StronglySorted_cons in Hs as [Hht _].
  constructor; [lia|].
  eapply Forall_impl; [exact Hht|]. unfold le_value. intros x Hx. lia.
Qed.

(** ** The replay of [Merge] *)

(** Records whose keys the receiver already marks leave it as it is.  In
    particular a container merged into itself is never written to. *)
Lemma replay_present recs o :
  (∀ rc, rc ∈ recs → map_get (Bookkeeping o) (Key rc) = true) →
  replay recs o = o.
Proof.
  induction recs as [|rc recs IH]; intros Hall; simpl; [done|].
  rewrite exec_Insert. unfold Insert_state.
  rewrite (Hall rc) by (by left).
  apply IH. intros x Hx. apply Hall. by right.
Qed.

Lemma Merge_self o : wf o → replay (Rec o) o = o.
Proof.
  intros (_ & Hc & _). apply replay_present. intros rc Hrc.
  apply consistent_map_get; [done|]. by apply list_elem_of_fmap_2.
Qed.

Lemma replay_perm recs o :
  wf o → NoDup (Key <$> recs) →
  Rec (replay recs o) ≡ₚ Rec o ++ filter (λ rc, Key rc ∉ keys o) recs.
Proof.
  revert o. induction recs as [|rc recs IH]; intros o Hwf Hn; simpl.
  - by rewrite filter_nil, app_nil_r.
  - rewrite fmap_cons in Hn. apply NoDup_cons in Hn as [Hnot Hn].
    pose proof Hwf as (_ & Hc & _).
    rewrite exec_Insert.
    destruct (map_get (Bookkeeping o) (Key rc)) eqn:Hget.
    + assert (Insert_state (Key rc) (Value rc) o = o) as ->
        by (unfold Insert_state; by rewrite Hget).
      apply (consistent_map_get o _ Hc) in Hget.
      rewrite filter_cons_False by (intros Hk; by apply Hk).
      by apply IH.
    + rewrite (IH _ (Insert_state_wf (Key rc) (Value rc) o Hwf) Hn).
      apply (consistent_map_get_false o _ Hc) in Hget as Hk.
      rewrite filter_cons_True by done.
      rewrite (filter_ext_in _ (λ x, Key x ∉ keys o)).
      * unfold Insert_state. rewrite Hget. simpl.
        rewrite insert_at_perm. destruct rc as [k v]. simpl.
        by rewrite <- Permutation_middle.
      * intros x Hx. rewrite Insert_state_keys by done.
        assert (Key x ≠ Key rc)
          by (intros Heq; apply Hnot; rewrite <- Heq;
              by apply list_elem_of_fmap_2).
        naive_solver.
Qed.

(** * The properties of the specification *)

(** C1 (sort invariant I1).  In every container reachable from [New] by
    calls of the methods, whether they succeed or fail, the sequence is in
    ascending order of value: each record's value is at most the value of
    the record that follows it. *)
Theorem sort_invariant ol i r1 r2 :
  reachable ol →
  Rec ol !! i = Some r1 → Rec ol !! S i = Some r2 →
  (Value r1 ≤ Value r2)%N.
Proof.
  intros (Hs & _)%reachable_wf Hi Hj.
  apply (StronglySorted_lookup le_value (Rec ol) i (S i)); [done|lia|done..].
Qed.

Lemma sort_invariant_witness :
  let ol := exec (Insert "c" 4) (exec (Insert "a" 9) (exec (Insert "b" 4) New)) in
  reachable ol ∧
  Rec ol !! 1%nat = Some (mkRecord "b" 4) ∧
  Rec ol !! 2%nat = Some (mkRecord "a" 9) ∧
  (Value (mkRecord "b" 4) ≤ Value (mkRecord "a" 9))%N.
Proof.
  intros ol.
  assert (Hr : reachable ol)
    by (do 3 apply reachable_Insert; apply reachable_New).
  split_and!; [exact Hr|reflexivity|reflexivity|].
  apply (sort_invariant ol 1 (mkRecord "b" 4) (mkRecord "a" 9) Hr);
    reflexivity.
Defined.

(** C3 (no duplicates).  [Insert] with a key that the membership map
    already marks fails with the duplicate-key error, for any value, and
    leaves map and sequence as they were. *)
Theorem Insert_duplicate ol key value :
  map_get (Bookkeeping ol) key = true →
  Insert key value ol = Returns DuplicateKeyError ol.
Proof.
  intros Hget. rewrite Insert_Returns. unfold Insert_state. by rewrite Hget.
Qed.

Lemma Insert_duplicate_witness :
  let ol := exec (Insert "a" 9) (exec (Insert "b" 4) New) in
  map_get (Bookkeeping ol) "a" = true ∧
  Insert "a" 1 ol = Returns DuplicateKeyError ol.
Proof.
  intros ol. split; [reflexivity|].
  apply (Insert_duplicate ol "a" 1). reflexivity.
Defined.

(** C5 (consistency invariants I2 and I3).  In every reachable container
    the keys of the membership map are the keys of the sequence, as sets
    and in number, every key of the map is marked, and no key occurs in
    two records. *)
Theorem consistency_invariants ol :
  reachable ol →
  dom (Bookkeeping ol) = list_to_set (Key <$> Rec ol) ∧
  (∀ k, map_get (Bookkeeping ol) k = true ↔ k ∈ Key <$> Rec ol) ∧
  size (Bookkeeping ol) = length (Rec ol) ∧
  NoDup (Key <$> Rec ol).
Proof.
  intros (_ & Hc & Hn)%reachable_wf.
  destruct (consistent_I2 ol Hc) as [Hdom _].
  split_and!; [done| |
    |done].
  - intros k. by apply consistent_map_get.
  - rewrite <- size_dom, Hdom, size_list_to_set by done.
    unfold keys. by rewrite length_fmap.
Qed.

Lemma consistency_invariants_witness :
  let ol := exec (Remove "b")
              (exec (Insert "a" 9) (exec (Insert "b" 4) New)) in
  reachable ol ∧ size (Bookkeeping ol) = length (Rec ol).
Proof.
  intros ol.
  assert (Hr : reachable ol)
    by (apply reachable_Remove; do 2 apply reachable_Insert;
        apply reachable_New).
  split; [exact Hr|].
  exact (proj1 (proj2 (proj2 (consistency_invariants ol Hr)))).
Defined.

(** C2 (insertion position).  An [Insert] that succeeds puts the new
    record at the smallest index [i] whose record has a value not below
    the new one, in front of the records of equal value, the later records
    moving up by one; with no such index, [i] is the length and the record
    goes to the end.  So ["x"], ["y"], ["z"] inserted with value 5 into an
    empty container end up in the order z, y, x. *)
Theorem Insert_position :
  (∀ ol key value,
     map_get (Bookkeeping ol) key = false →
     ∃ (i : nat) ol',
       Insert key value ol = Returns nil_error ol' ∧
       (i ≤ length (Rec ol))%nat ∧
       Rec ol' = take i (Rec ol) ++ mkRecord key value :: drop i (Rec ol) ∧
       (∀ j r, (j < i)%nat → Rec ol !! j = Some r → (Value r < value)%N) ∧
       (∀ r, Rec ol !! i = Some r → (value ≤ Value r)%N)) ∧
  (∃ ol1 ol2 ol3,
     Insert "x" 5 New = Returns nil_error ol1 ∧
     Insert "y" 5 ol1 = Returns nil_error ol2 ∧
     Insert "z" 5 ol2 = Returns nil_error ol3 ∧
     Rec ol3 = [mkRecord "z" 5; mkRecord "y" 5; mkRecord "x" 5]).
Proof.
  split.
  - intros ol key value Hget.
    exists (position value (Rec ol)), (Insert_state key value ol).
    rewrite Insert_Returns. unfold Insert_state. rewrite Hget. simpl.
    split_and!; [done|apply position_le|done|apply position_before|].
    apply position_at.
  - by eexists _, _, _.
Qed.

Lemma Insert_position_witness :
  let ol := exec (Insert "a" 9) (exec (Insert "b" 4) New) in
  map_get (Bookkeeping ol) "c" = false ∧
  ∃ (i : nat) ol',
    Insert "c" 9 ol = Returns nil_error ol' ∧
    (i ≤ length (Rec ol))%nat ∧
    Rec ol' = take i (Rec ol) ++ mkRecord "c" 9 :: drop i (Rec ol) ∧
    (∀ j r, (j < i)%nat → Rec ol !! j = Some r → (Value r < 9)%N) ∧
    (∀ r, Rec ol !! i = Some r → (9 ≤ Value r)%N).
Proof.
  intros ol. split; [reflexivity|].
  apply (proj1 Insert_position ol "c" 9%N). reflexivity.
Defined.

(** C7 (removal).  [Remove] of a key held by a record of a reachable
    container succeeds, takes exactly that record out of the sequence, the
    later records moving down by one, and the key out of the map; [Get] of
    the key then fails with the key-not-found error.  [Remove] of a key
    that no record holds fails with that error and changes nothing. *)
Theorem Remove_present_absent :
  (∀ ol key i r,
     reachable ol → Rec ol !! i = Some r → Key r = key →
     ∃ ol',
       Remove key ol = Returns nil_error ol' ∧
       Rec ol' = take i (Rec ol) ++ drop (S i) (Rec ol) ∧
       Bookkeeping ol' = delete key (Bookkeeping ol) ∧
       Get key ol' = Returns (0%N, KeyNotFoundError) ol') ∧
  (∀ ol key,
     key ∉ Key <$> Rec ol → Remove key ol = Returns KeyNotFoundError ol).
Proof.
  split.
  - intros ol key i r (_ & _ & Hn)%reachable_wf Hi <-.
    pose proof (find_key_NoDup (Rec ol) i r Hn Hi) as Hf.
    exists (Remove_state (Key r) ol).
    rewrite Remove_Returns, Hf.
    split_and!; [done|..].
    + unfold Remove_state. rewrite Hf. apply delete_take_drop.
    + unfold Remove_state. by rewrite Hf.
    + apply Get_absent. rewrite Remove_state_keys by done. naive_solver.
  - intros ol key Hk%find_key_None.
    rewrite Remove_Returns. unfold Remove_state. by rewrite Hk.
Qed.

Lemma Remove_present_absent_witness :
  let ol := exec (Insert "c" 4) (exec (Insert "a" 9) (exec (Insert "b" 4) New)) in
  (reachable ol ∧ Rec ol !! 1%nat = Some (mkRecord "b" 4) ∧
   ∃ ol', Remove "b" ol = Returns nil_error ol' ∧
          Rec ol' = take 1 (Rec ol) ++ drop 2 (Rec ol) ∧
          Bookkeeping ol' = delete "b" (Bookkeeping ol) ∧
          Get "b" ol' = Returns (0%N, KeyNotFoundError) ol') ∧
  (("d" ∉ Key <$> Rec ol) ∧ Remove "d" ol = Returns KeyNotFoundError ol).
Proof.
  intros ol.
  assert (Hr : reachable ol)
    by (do 3 apply reachable_Insert; apply reachable_New).
  assert (Hd : "d" ∉ Key <$> Rec ol) by (apply (bool_decide_unpack _); reflexivity).
  split.
  - split_and!; [exact Hr|reflexivity|].
    apply (proj1 Remove_present_absent ol "b" 1%nat (mkRecord "b" 4) Hr);
      reflexivity.
  - split; [exact Hd|].
    apply (proj2 Remove_present_absent ol "d" Hd).
Defined.

(** C8 (round trip).  In a reachable container [Insert] of a key that no
    record holds succeeds and [Get] of that key then returns the inserted
    value.  [Get] never changes the container, and it fails, with the
    key-not-found error, exactly when no record of the sequence has the
    key. *)
Theorem Insert_Get_roundtrip :
  (∀ ol k v,
     reachable ol → k ∉ Key <$> Rec ol →
     ∃ ol', Insert k v ol = Returns nil_error ol' ∧
            Get k ol' = Returns (v, nil_error) ol') ∧
  (∀ ol k,
     ∃ v err, Get k ol = Returns (v, err) ol ∧
              (err = nil_error ∨ err = KeyNotFoundError) ∧
              (err = KeyNotFoundError ↔ k ∉ Key <$> Rec ol)).
Proof.
  split.
  - intros ol k v Hr Hk. pose proof (reachable_wf ol Hr) as Hwf.
    pose proof Hwf as (_ & Hc & _).
    apply (consistent_map_get_false ol k Hc) in Hk as Hget.
    pose proof (Insert_state_wf k v ol Hwf) as (_ & _ & Hn').
    exists (Insert_state k v ol). rewrite Insert_Returns, Hget.
    split; [done|].
    apply (Get_elem_of _ (mkRecord k v)); [done|].
    unfold Insert_state. rewrite Hget. simpl.
    apply elem_of_insert_at. by left.
  - intros ol k. rewrite Get_Returns.
    destruct (find_key k (Rec ol)) as [[i r]|] eqn:Hf.
    + exists (Value r), nil_error. split_and!; [done|by left|].
      split; [done|]. intros Hk%find_key_None. congruence.
    + exists 0%N, KeyNotFoundError. split_and!; [done|by right|].
      by apply find_key_None in Hf.
Qed.

Lemma Insert_Get_roundtrip_witness :
  let ol := exec (Insert "a" 9) (exec (Insert "b" 4) New) in
  reachable ol ∧ ("c" ∉ Key <$> Rec ol) ∧
  ∃ ol', Insert "c" 7 ol = Returns nil_error ol' ∧
         Get "c" ol' = Returns (7%N, nil_error) ol'.
Proof.
  intros ol.
  assert (Hr : reachable ol)
    by (do 2 apply reachable_Insert; apply reachable_New).
  assert (Hc : "c" ∉ Key <$> Rec ol) by (apply (bool_decide_unpack _); reflexivity).
  split_and!; [exact Hr|exact Hc|].
  apply (proj1 Insert_Get_roundtrip ol "c" 7%N Hr Hc).
Defined.

(** C6 (update).  [Update] is [Remove] followed by [Insert], an error of
    either being returned.  With a key that no record holds it fails with
    the key-not-found error and changes nothing.  With a key held by a
    record of a reachable container it succeeds, [Get] of the key then
    returns the new value, and the record takes the place its new value
    gives it among the other records: after those of smaller value, before
    those of equal or larger value.  The record moves; in the example the
    record of ["a"] goes from the front to the end. *)
Theorem Update_remove_then_insert :
  (∀ ol key value,
     Update key value ol =
       (let* err := Remove key in
        if decide (err ≠ nil_error) then ret err else Insert key value) ol) ∧
  (∀ ol key value,
     key ∉ Key <$> Rec ol →
     Update key value ol = Returns KeyNotFoundError ol) ∧
  (∀ ol key value,
     reachable ol → key ∈ Key <$> Rec ol →
     ∃ ol',
       Update key value ol = Returns nil_error ol' ∧
       Get key ol' = Returns (value, nil_error) ol' ∧
       let others := filter (λ r, Key r ≠ key) (Rec ol) in
       let rank := length (filter (λ r, (Value r < value)%N) others) in
       Rec ol' = take rank others ++ mkRecord key value :: drop rank others) ∧
  (∃ ol ol',
     reachable ol ∧
     Rec ol = [mkRecord "a" 1; mkRecord "b" 2] ∧
     Update "a" 5 ol = Returns nil_error ol' ∧
     Rec ol' = [mkRecord "b" 2; mkRecord "a" 5]).
Proof.
  split_and!.
  - intros ol key value. unfold Update, bind.
    destruct (Remove key ol) as [err ol1|]; [|done].
    case_decide; [done|]. rewrite Insert_Returns.
    by destruct (map_get (Bookkeeping ol1) key).
  - intros ol key value Hk%find_key_None. by rewrite Update_Returns, Hk.
  - intros ol key value Hr Hk. pose proof (reachable_wf ol Hr) as Hwf.
    apply find_key_is_Some in Hk as [[i r] Hf].
    pose proof (Remove_state_wf key ol Hwf) as Hwf1.
    pose proof (Insert_state_wf key value _ Hwf1) as (_ & _ & Hn2).
    destruct Hwf as (_ & _ & Hn). destruct Hwf1 as (Hs1 & _ & _).
    exists (Insert_state key value (Remove_state key ol)).
    rewrite Update_Returns, Hf. split; [done|].
    assert (Hget : map_get (Bookkeeping (Remove_state key ol)) key = false).
    { unfold Remove_state, map_get. rewrite Hf. simpl.
      by rewrite lookup_delete_eq. }
    assert (Hrec : Rec (Insert_state key value (Remove_state key ol)) =
                   insert_at (position value (Rec (Remove_state key ol)))
                     (mkRecord key value) (Rec (Remove_state key ol))).
    { unfold Insert_state. by rewrite Hget. }
    split.
    + apply (Get_elem_of _ (mkRecord key value)); [done|].
      rewrite Hrec. apply elem_of_insert_at. by left.
    + simpl. rewrite Hrec, (filter_other_keys key (Rec ol) i r Hn Hf).
      assert (Rec (Remove_state key ol) = delete i (Rec ol)) as ->
        by (unfold Remove_state; by rewrite Hf).
      rewrite position_rank; [done|].
      unfold I1, Remove_state in Hs1. by rewrite Hf in Hs1.
  - exists (exec (Insert "a" 1) (exec (Insert "b" 2) New)). eexists.
    split_and!; [|reflexivity..].
    do 2 apply reachable_Insert. apply reachable_New.
Qed.

Lemma Update_remove_then_insert_witness :
  let ol := exec (Insert "c" 4) (exec (Insert "a" 9) (exec (Insert "b" 4) New)) in
  (("d" ∉ Key <$> Rec ol) ∧ Update "d" 1 ol = Returns KeyNotFoundError ol) ∧
  (reachable ol ∧ "c" ∈ Key <$> Rec ol ∧
   ∃ ol',
     Update "c" 9 ol = Returns nil_error ol' ∧
     Get "c" ol' = Returns (9%N, nil_error) ol' ∧
     let others := filter (λ r, Key r ≠ "c") (Rec ol) in
     let rank := length (filter (λ r, (Value r < 9)%N) others) in
     Rec ol' = take rank others ++ mkRecord "c" 9 :: drop rank others).
Proof.
  intros ol.
  assert (Hr : reachable ol)
    by (do 3 apply reachable_Insert; apply reachable_New).
  assert (Hd : "d" ∉ Key <$> Rec ol) by (apply (bool_decide_unpack _); reflexivity).
  assert (Hc : "c" ∈ Key <$> Rec ol) by (apply (bool_decide_unpack _); reflexivity).
  split.
  - split; [exact Hd|].
    apply (proj1 (proj2 Update_remove_then_insert) ol "d" 1%N Hd).
  - split_and!; [exact Hr|exact Hc|].
    apply (proj1 (proj2 (proj2 Update_remove_then_insert)) ol "c" 9%N Hr Hc).
Defined.

(** C9 (lowest and highest), as the code has it.  [GetLowest] and
    [GetHighest] return a bare value and have no error result.  On an
    empty container the index expression is evaluated unguarded and the
    call panics, index out of range, instead of returning.  On a
    non-empty container [GetLowest] returns the value of the first record
    and [GetHighest] that of the last, the smallest and the largest value
    of a reachable container. *)
Theorem GetLowest_GetHighest_unguarded :
  (∀ ol, Rec ol = [] →
         GetLowest ol = Panics (IndexOutOfRange 0 0) ∧
         GetHighest ol = Panics (IndexOutOfRange (-1) 0)) ∧
  (∀ ol first final,
     head (Rec ol) = Some first → last (Rec ol) = Some final →
     GetLowest ol = Returns (Value first) ol ∧
     GetHighest ol = Returns (Value final) ol) ∧
  (∀ ol first final r,
     reachable ol →
     head (Rec ol) = Some first → last (Rec ol) = Some final →
     r ∈ Rec ol → (Value first ≤ Value r ≤ Value final)%N).
Proof.
  split_and!.
  - intros ol Hnil. rewrite GetLowest_Returns, GetHighest_Returns.
    by rewrite Hnil.
  - intros ol first final Hfirst Hfinal.
    rewrite GetLowest_Returns, GetHighest_Returns, Hfinal.
    by destruct (Rec ol); simplify_eq/=.
  - intros ol first final r (Hs & _)%reachable_wf Hfirst Hfinal Hr.
    unfold I1 in Hs.
    apply list_elem_of_lookup in Hr as [i Hi].
    pose proof (lookup_lt_Some _ _ _ Hi) as Hlt.
    rewrite head_lookup in Hfirst. rewrite last_lookup in Hfinal.
    split.
    + destruct (decide (i = 0%nat)) as [->|Hne]; [by simplify_eq|].
      apply (StronglySorted_lookup le_value (Rec ol) 0 i); [done|lia|done..].
    + destruct (decide (i = Nat.pred (length (Rec ol)))) as [->|Hne];
        [by simplify_eq|].
      apply (StronglySorted_lookup le_value (Rec ol) i
               (Nat.pred (length (Rec ol)))); [done|lia|done..].
Qed.

Lemma GetLowest_GetHighest_unguarded_witness :
  let ol := exec (Insert "d" 1) (exec (Insert "c" 9)
              (exec (Insert "b" 3) (exec (Insert "a" 7) New))) in
  (Rec New = [] ∧ GetLowest New = Panics (IndexOutOfRange 0 0) ∧
   GetHighest New = Panics (IndexOutOfRange (-1) 0)) ∧
  (head (Rec ol) = Some (mkRecord "d" 1) ∧
   last (Rec ol) = Some (mkRecord "c" 9) ∧
   GetLowest ol = Returns 1%N ol ∧ GetHighest ol = Returns 9%N ol) ∧
  (reachable ol ∧ mkRecord "b" 3 ∈ Rec ol ∧ (1 ≤ 3 ≤ 9)%N).
Proof.
  intros ol.
  assert (Hr : reachable ol)
    by (do 4 apply reachable_Insert; apply reachable_New).
  assert (Hb : mkRecord "b" 3 ∈ Rec ol)
    by (apply (bool_decide_unpack _); reflexivity).
  split; [|split].
  - split; [reflexivity|].
    apply (proj1 GetLowest_GetHighest_unguarded New). reflexivity.
  - split; [reflexivity|]. split; [reflexivity|].
    apply (proj1 (proj2 GetLowest_GetHighest_unguarded) ol
             (mkRecord "d" 1) (mkRecord "c" 9)); reflexivity.
  - split; [exact Hr|]. split; [exact Hb|].
    apply (proj2 (proj2 GetLowest_GetHighest_unguarded) ol
             (mkRecord "d" 1) (mkRecord "c" 9) (mkRecord "b" 3) Hr);
      [reflexivity|reflexivity|exact Hb].
Defined.

(** C9 as the specification states it fails on the empty container: the
    two calls do not return to their caller, with an error or otherwise;
    the unguarded access takes place and panics. *)
Lemma GetLowest_GetHighest_empty_counterexample :
  Rec New = [] ∧
  GetLowest New = Panics (IndexOutOfRange 0 0) ∧
  GetHighest New = Panics (IndexOutOfRange (-1) 0) ∧
  ¬ (∃ v ol', GetLowest New = Returns v ol') ∧
  ¬ (∃ v ol', GetHighest New = Returns v ol').
Proof.
  split_and!; [reflexivity..| |]; by intros (v & ol' & Hret).
Qed.

(** C4 (merge).  [Merge] returns without an error to report and leaves in
    the receiver the records of the source replayed through [Insert], in
    the order of the source's sequence, the error of each [Insert] being
    dropped.  For reachable containers: the receiver ends with its own
    records and those records of the source whose keys it did not hold;
    every key it held keeps its value; every record of the source with a
    new key can be read back; and the container at [source] is what it
    was, also when [source] is the receiver. *)
Theorem Merge_replays_and_drops (σ : store) ol source r s :
  σ !! ol = Some r → σ !! source = Some s →
  reachable r → reachable s →
  ∃ r',
    Merge ol source σ = Returns tt (<[ol := r']> σ) ∧
    r' = foldl (λ o record, exec (Insert (Key record) (Value record)) o)
               r (Rec s) ∧
    Rec r' ≡ₚ
      Rec r ++ filter (λ record, Key record ∉ Key <$> Rec r) (Rec s) ∧
    (∀ k v, Get k r = Returns (v, nil_error) r →
            Get k r' = Returns (v, nil_error) r') ∧
    (∀ record, record ∈ Rec s → Key record ∉ Key <$> Rec r →
               Get (Key record) r' = Returns (Value record, nil_error) r') ∧
    <[ol := r']> σ !! source = Some s.
Proof.
  intros Hp Hq Hr%reachable_wf Hs%reachable_wf.
  exists (replay (Rec s) r).
  pose proof (replay_wf (Rec s) r Hr) as (_ & _ & Hn').
  pose proof Hs as (_ & _ & Hns).
  pose proof (replay_perm (Rec s) r Hr Hns) as Hperm.
  split_and!; [by apply Merge_Returns|done|done|..].
  - intros k v (x & Hx & <- & <-)%Get_found_inv.
    apply Get_elem_of; [done|]. rewrite Hperm. apply elem_of_app. by left.
  - intros record Hin Hnew.
    apply Get_elem_of; [done|]. rewrite Hperm. apply elem_of_app. right.
    by apply list_elem_of_filter.
  - destruct (decide (ol = source)) as [->|Hne].
    + assert (r = s) as -> by congruence.
      by rewrite Merge_self, lookup_insert_eq.
    + by rewrite lookup_insert_ne.
Qed.

(** The example of the specification: the receiver holds "a" with 1, the
    source "a" with 2 and "b" with 3. *)
Lemma Merge_replays_and_drops_witness :
  let r := exec (Insert "a" 1) New in
  let s := exec (Insert "b" 3) (exec (Insert "a" 2) New) in
  let σ : store := <[2%positive := s]> (<[1%positive := r]> ∅) in
  reachable r ∧ reachable s ∧
  ∃ r',
    Merge 1%positive 2%positive σ = Returns tt (<[1%positive := r']> σ) ∧
    Get "a" r' = Returns (1%N, nil_error) r' ∧
    Get "b" r' = Returns (3%N, nil_error) r' ∧
    <[1%positive := r']> σ !! 2%positive = Some s.
Proof.
  intros r s σ.
  assert (Hr : reachable r) by (apply reachable_Insert, reachable_New).
  assert (Hs : reachable s)
    by (do 2 apply reachable_Insert; apply reachable_New).
  split; [exact Hr|]. split; [exact Hs|].
  destruct (Merge_replays_and_drops σ 1%positive 2%positive r s
              eq_refl eq_refl Hr Hs)
    as (r' & Hm & Hfold & _ & Hkeep & Hnew & Hsrc).
  exists r'. split; [exact Hm|]. split; [|split; [|exact Hsrc]].
  - apply (Hkeep "a" 1%N). reflexivity.
  - apply (Hnew (mkRecord "b" 3)); apply (bool_decide_unpack _); reflexivity.
Defined.

(** C10 (merge into an empty container).  A source whose sequence has
    pairwise distinct keys, merged into an empty receiver, is copied: the
    receiver ends with the records of the source, in some order, and
    [Get] gives for every key the result it gives on the source, a value
    or the key-not-found error. *)
Theorem Merge_into_empty (σ : store) ol source s :
  σ !! ol = Some New → σ !! source = Some s →
  NoDup (Key <$> Rec s) →
  ∃ r',
    Merge ol source σ = Returns tt (<[ol := r']> σ) ∧
    Rec r' ≡ₚ Rec s ∧
    (∀ k, ∃ res, Get k r' = Returns res r' ∧ Get k s = Returns res s).
Proof.
  intros Hp Hq Hns.
  exists (replay (Rec s) New).
  pose proof (replay_wf (Rec s) New wf_New) as (_ & _ & Hn').
  assert (Hperm : Rec (replay (Rec s) New) ≡ₚ Rec s).
  { rewrite (replay_perm (Rec s) New wf_New Hns). simpl.
    rewrite filter_all; [done|].
    apply list.Forall_forall. intros x _. apply not_elem_of_nil. }
  split_and!; [by apply Merge_Returns|done|].
  intros k. destruct (decide (k ∈ Key <$> Rec s)) as [Hk|Hk].
  - apply list_elem_of_fmap in Hk as (x & -> & Hx).
    exists (Value x, nil_error). split; apply Get_elem_of; try done.
    by rewrite Hperm.
  - exists (0%N, KeyNotFoundError). split; apply Get_absent; [|done].
    unfold keys. by rewrite Hperm.
Qed.

Lemma Merge_into_empty_witness :
  let s := mkOrderedList ∅ [mkRecord "y" 5; mkRecord "x" 5; mkRecord "w" 2] in
  let σ : store := <[2%positive := s]> (<[1%positive := New]> ∅) in
  NoDup (Key <$> Rec s) ∧
  ∃ r',
    Merge 1%positive 2%positive σ = Returns tt (<[1%positive := r']> σ) ∧
    Rec r' ≡ₚ Rec s ∧
    (∀ k, ∃ res, Get k r' = Returns res r' ∧ Get k s = Returns res s).
Proof.
  intros s σ.
  assert (Hn : NoDup (Key <$> Rec s))
    by (apply (bool_decide_unpack _); reflexivity).
  split; [exact Hn|].
  apply (Merge_into_empty σ 1%positive 2%positive s eq_refl eq_refl Hn).
Defined.

(** * Further properties of the package *)

(** ** Helper facts *)

Lemma find_key_cons key x recs :
  find_key key (x :: recs) =
    if decide (Key x = key) then Some (0%nat, x)
    else prod_map S id <$> find_key key recs.
Proof. done. Qed.

Lemma position_cons value x recs :
  position value (x :: recs) =
    if decide (value ≤ Value x)%N then 0%nat else S (position value recs).
Proof.
  unfold position. simpl. case_decide; [done|].
  by destruct (list_find _ recs) as [[j y]|].
Qed.

Lemma insert_at_place r recs :
  insert_at (position (Value r) recs) r recs = place r recs.
Proof.
  induction recs as [|x recs IH]; [done|].
  rewrite position_cons. simpl. case_decide; [done|].
  unfold insert_at in *. simpl. by rewrite IH.
Qed.

Lemma Insert_state_place key value ol :
  map_get (Bookkeeping ol) key = false →
  Insert_state key value ol =
    mkOrderedList (<[key := true]> (Bookkeeping ol))
                  (place (mkRecord key value) (Rec ol)).
Proof.
  intros Hget. unfold Insert_state. rewrite Hget.
  by rewrite <- (insert_at_place (mkRecord key value)).
Qed.

Lemma delete_find_key key recs i r :
  find_key key recs = Some (i, r) → delete i recs = remove_first key recs.
Proof.
  revert i. induction recs as [|x recs IH]; intros i Hf; [done|].
  rewrite find_key_cons in Hf. simpl. case_decide.
  - by injection Hf as <- _.
  - destruct (find_key key recs) as [[j y]|]; [|done].
    simpl in Hf. injection Hf as <- <-. simpl. f_equal. by apply IH.
Qed.

Lemma remove_first_absent key recs :
  find_key key recs = None → remove_first key recs = recs.
Proof.
  induction recs as [|x recs IH]; intros Hf; [done|].
  rewrite find_key_cons in Hf. simpl. case_decide; [done|].
  destruct (find_key key recs) as [[j y]|]; [done|]. f_equal. by apply IH.
Qed.

Lemma Remove_state_remove_first key ol :
  Rec (Remove_state key ol) = remove_first key (Rec ol).
Proof.
  unfold Remove_state.
  destruct (find_key key (Rec ol)) as [[i r]|] eqn:Hf; simpl.
  - by eapply delete_find_key.
  - by rewrite remove_first_absent.
Qed.

Lemma find_key_head_filter key recs :
  snd <$> find_key key recs = head (filter (λ r, Key r = key) recs).
Proof.
  induction recs as [|x recs IH]; [done|].
  rewrite find_key_cons, filter_cons. case_decide; [done|].
  rewrite <- IH. by destruct (find_key key recs) as [[j y]|].
Qed.



Lemma filter_remove_first key k recs :
  k ≠ key →
  filter (λ x, Key x = key) (remove_first k recs) =
    filter (λ x, Key x = key) recs.
Proof.
  intros Hne. induction recs as [|x recs IH]; [done|]. simpl.
  case_decide as Hx.
  - rewrite filter_cons_False; [done|]. congruence.
  - by rewrite !filter_cons, IH.
Qed.

Lemma remove_first_place r recs :
  Key r ∉ Key <$> recs → remove_first (Key r) (place r recs) = recs.
Proof.
  induction recs as [|x recs IH]; intros Hnot; simpl.
  - by rewrite decide_True.
  - rewrite fmap_cons, not_elem_of_cons in Hnot. destruct Hnot as [Hx Hnot].
    case_decide; simpl.
    + by rewrite decide_True.
    + rewrite decide_False by done. by rewrite IH.
Qed.


Lemma remove_first_comm k1 k2 recs :
  remove_first k1 (remove_first k2 recs) =
    remove_first k2 (remove_first k1 recs).
Proof.
  induction recs as [|x recs IH]; [done|]. simpl.
  repeat (case_decide; simpl); try done; congruence.
Qed.

(** ** Errors and panics *)


(** ** The two scans *)

(** X2.  [getPosition] leaves the container as it is and returns either
    [-1], when every record has a value below [value] (the empty
    sequence included), or an index within the sequence: that of the
    first record whose value is not below [value]. *)
Theorem getPosition_result ol value :
  ∃ index,
    getPosition value ol = Returns index ol ∧
    ((index = -1 ∧ ∀ r, r ∈ Rec ol → (Value r < value)%N) ∨
     (0 ≤ index < len (Rec ol) ∧
      (∃ r, Rec ol !! Z.to_nat index = Some r ∧ (value ≤ Value r)%N) ∧
      ∀ j r, (j < Z.to_nat index)%nat → Rec ol !! j = Some r →
             (Value r < value)%N)).
Proof.
  unfold getPosition. unfold_method. rewrite getPosition_loop_find.
  destruct (list_find _ (Rec ol)) as [[j x]|] eqn:Hf; eexists; (split; [done|]).
  - right. apply list_find_Some in Hf as (Hj & Hx & Hmin).
    pose proof (lookup_lt_Some _ _ _ Hj). unfold len.
    replace (Z.to_nat (0 + Z.of_nat j)) with j by lia.
    split_and!; [lia..|by eauto|].
    intros i r Hi Hr. specialize (Hmin i r Hr Hi). lia.
  - left. split; [done|]. apply list_find_None in Hf.
    intros r Hr. pose proof (proj1 (list.Forall_forall _ _) Hf r Hr) as Hv.
    simpl in Hv. lia.
Qed.

(** X3.  [getIndexByKey] leaves the container as it is and returns either
    [-1] with the key-not-found error, when no record has the key, or nil
    with an index within the sequence: that of the first record with the
    key. *)
Theorem getIndexByKey_result ol key :
  ∃ index err,
    getIndexByKey key ol = Returns (index, err) ol ∧
    ((index = -1 ∧ err = KeyNotFoundError ∧ key ∉ Key <$> Rec ol) ∨
     (0 ≤ index < len (Rec ol) ∧ err = nil_error ∧
      (∃ r, Rec ol !! Z.to_nat index = Some r ∧ Key r = key) ∧
      ∀ j r, (j < Z.to_nat index)%nat → Rec ol !! j = Some r →
             Key r ≠ key)).
Proof.
  unfold getIndexByKey. unfold_method. rewrite getIndexByKey_loop_find.
  pose proof (find_key_None key (Rec ol)) as Hnone. unfold find_key in Hnone.
  destruct (list_find _ (Rec ol)) as [[j x]|] eqn:Hf;
    eexists _, _; (split; [done|]).
  - right. apply list_find_Some in Hf as (Hj & Hx & Hmin).
    pose proof (lookup_lt_Some _ _ _ Hj). unfold len.
    replace (Z.to_nat (0 + Z.of_nat j)) with j by lia.
    split_and!; [lia..|done|by eauto|].
    intros i r Hi Hr. by apply (Hmin i r Hr Hi).
  - left. split_and!; [done..|]. by apply Hnone.
Qed.

(** ** Round trips and composition *)

Lemma Remove_Insert_state key value ol :
  Bookkeeping ol !! key = None → key ∉ Key <$> Rec ol →
  Remove_state key (Insert_state key value ol) = ol.
Proof.
  intros Hnone Hnot.
  assert (Hget : map_get (Bookkeeping ol) key = false)
    by (unfold map_get; by rewrite Hnone).
  pose proof (Remove_state_remove_first key (Insert_state key value ol)) as Hrec.
  rewrite Insert_state_place in * by done. simpl in Hrec.
  rewrite (remove_first_place (mkRecord key value)) in Hrec by done.
  unfold Remove_state in *. simpl in *.
  destruct (find_key key (place _ (Rec ol))) as [[i r]|] eqn:Hf.
  - simpl in Hrec. rewrite Hrec, delete_insert_id by done. by destruct ol.
  - apply find_key_None in Hf. exfalso. apply Hf.
    apply list_elem_of_fmap. exists (mkRecord key value). split; [done|].
    rewrite <- (insert_at_place (mkRecord key value)).
    apply elem_of_insert_at. by left.
Qed.

(** X4.  In a reachable container, [Insert] of a key that no record holds
    followed by [Remove] of that key gives back the container as it was,
    map and sequence. *)
Theorem Insert_Remove_roundtrip ol key value :
  reachable ol → key ∉ Key <$> Rec ol →
  ∃ ol1, Insert key value ol = Returns nil_error ol1 ∧
         Remove key ol1 = Returns nil_error ol.
Proof.
  intros (_ & Hc & _)%reachable_wf Hnot.
  pose proof (proj2 (consistent_map_get_false ol key Hc) Hnot) as Hget.
  assert (Hnone : Bookkeeping ol !! key = None)
    by (rewrite Hc; by rewrite decide_False).
  exists (Insert_state key value ol).
  rewrite Insert_Returns, Hget. split; [done|].
  rewrite Remove_Returns, Remove_Insert_state by done.
  rewrite Insert_state_place by done. simpl.
  destruct (find_key key (place _ (Rec ol))) eqn:Hf; [done|].
  apply find_key_None in Hf. exfalso. apply Hf.
  apply list_elem_of_fmap. exists (mkRecord key value). split; [done|].
  rewrite <- (insert_at_place (mkRecord key value)).
  apply elem_of_insert_at. by left.
Qed.

Lemma Insert_Remove_roundtrip_witness :
  let ol := exec (Insert "a" 9) (exec (Insert "b" 4) New) in
  reachable ol ∧ ("c" ∉ Key <$> Rec ol) ∧
  ∃ ol1, Insert "c" 4 ol = Returns nil_error ol1 ∧
         Remove "c" ol1 = Returns nil_error ol.
Proof.
  intros ol.
  assert (Hr : reachable ol)
    by (do 2 apply reachable_Insert; apply reachable_New).
  assert (Hc : "c" ∉ Key <$> Rec ol)
    by (apply (bool_decide_unpack _); reflexivity).
  split; [exact Hr|]. split; [exact Hc|].
  apply (Insert_Remove_roundtrip ol "c" 4%N Hr Hc).
Defined.



Lemma find_key_Insert_state key value ol :
  map_get (Bookkeeping ol) key = false →
  is_Some (find_key key (Rec (Insert_state key value ol))).
Proof.
  intros Hget. apply find_key_is_Some.
  apply (Insert_state_keys key value ol key Hget). by left.
Qed.

(** X6.  In a reachable container [Update] is idempotent: a second call
    with the same key and value returns the same error and changes
    nothing. *)
Theorem Update_idempotent ol key value :
  reachable ol →
  ∃ err ol1, Update key value ol = Returns err ol1 ∧
             Update key value ol1 = Returns err ol1.
Proof.
  intros Hwf%reachable_wf. rewrite Update_Returns.
  destruct (find_key key (Rec ol)) as [[i r]|] eqn:Hf.
  - pose proof (Remove_state_wf key ol Hwf) as (_ & Hc1 & _).
    destruct Hwf as (_ & _ & Hn).
    assert (Hnot : key ∉ keys (Remove_state key ol))
      by (rewrite Remove_state_keys by done; naive_solver).
    assert (Hnone : Bookkeeping (Remove_state key ol) !! key = None)
      by (rewrite Hc1; by rewrite decide_False).
    assert (Hget : map_get (Bookkeeping (Remove_state key ol)) key = false)
      by (unfold map_get; by rewrite Hnone).
    eexists _, _. split; [done|]. rewrite Update_Returns.
    destruct (find_key_Insert_state key value _ Hget) as [x ->].
    by rewrite Remove_Insert_state.
  - eexists _, _. split; [done|]. by rewrite Update_Returns, Hf.
Qed.

Lemma Update_idempotent_witness :
  let ol := exec (Insert "c" 4) (exec (Insert "a" 9) (exec (Insert "b" 4) New)) in
  reachable ol ∧
  ∃ err ol1, Update "b" 4 ol = Returns err ol1 ∧
             Update "b" 4 ol1 = Returns err ol1.
Proof.
  intros ol.
  assert (Hr : reachable ol)
    by (do 3 apply reachable_Insert; apply reachable_New).
  split; [exact Hr|]. apply (Update_idempotent ol "b" 4%N Hr).
Defined.

(** X7.  In a reachable container [Update] keeps the set of keys: the
    map is the one it was, the keys of the sequence are the same up to
    their order, and the sequence has the length it had, whether the call
    succeeds or fails. *)
Theorem Update_keeps_keys ol key value :
  reachable ol →
  ∃ err ol', Update key value ol = Returns err ol' ∧
             Bookkeeping ol' = Bookkeeping ol ∧
             Key <$> Rec ol' ≡ₚ Key <$> Rec ol ∧
             length (Rec ol') = length (Rec ol).
Proof.
  intros (_ & Hc & _)%reachable_wf. rewrite Update_Returns.
  destruct (find_key key (Rec ol)) as [[i r]|] eqn:Hf; [|by eexists _, _].
  eexists _, _. split; [done|].
  assert (Hget : map_get (Bookkeeping (Remove_state key ol)) key = false).
  { unfold Remove_state, map_get. rewrite Hf. simpl.
    by rewrite lookup_delete_eq. }
  apply list_find_Some in Hf as Hfind. destruct Hfind as (Hi & Hk & _).
  assert (Hperm : Rec (Insert_state key value (Remove_state key ol)) ≡ₚ
                  mkRecord key value :: delete i (Rec ol)).
  { unfold Insert_state. rewrite Hget. simpl. rewrite insert_at_perm.
    unfold Remove_state. by rewrite Hf. }
  split_and!.
  - unfold Insert_state. rewrite Hget. simpl.
    unfold Remove_state. rewrite Hf. simpl.
    rewrite insert_delete_eq. apply insert_id.
    rewrite Hc, decide_True; [done|].
    rewrite <- Hk. apply list_elem_of_fmap_2. by eapply list_elem_of_lookup_2.
  - rewrite Hperm, fmap_cons. simpl. rewrite <- Hk.
    rewrite (delete_Permutation (Rec ol) i r Hi) at 2. by rewrite fmap_cons.
  - rewrite Hperm. simpl.
    by rewrite (delete_Permutation (Rec ol) i r Hi) at 2.
Qed.

Lemma Update_keeps_keys_witness :
  let ol := exec (Insert "c" 4) (exec (Insert "a" 9) (exec (Insert "b" 4) New)) in
  reachable ol ∧
  ∃ err ol', Update "c" 10 ol = Returns err ol' ∧
             Bookkeeping ol' = Bookkeeping ol ∧
             Key <$> Rec ol' ≡ₚ Key <$> Rec ol ∧
             length (Rec ol') = length (Rec ol).
Proof.
  intros ol.
  assert (Hr : reachable ol)
    by (do 3 apply reachable_Insert; apply reachable_New).
  split; [exact Hr|]. apply (Update_keeps_keys ol "c" 10%N Hr).
Defined.

(** ** Lowest and highest *)

Lemma wf_extremes ol :
  I1 ol → Rec ol ≠ [] →
  ∃ first final,
    GetLowest ol = Returns (Value first) ol ∧
    GetHighest ol = Returns (Value final) ol ∧
    first ∈ Rec ol ∧ final ∈ Rec ol ∧
    ∀ r, r ∈ Rec ol → (Value first ≤ Value r ≤ Value final)%N.
Proof.
  unfold I1. intros Hs Hne.
  rewrite GetLowest_Returns, GetHighest_Returns.
  destruct (last (Rec ol)) as [final|] eqn:Hlast;
    [|by apply last_None in Hlast].
  destruct (Rec ol) as [|first recs] eqn:Hrec; [done|].
  exists first, final. split_and!; [done..|by left| |].
  - apply last_Some in Hlast as [l' ->]. apply elem_of_app. right. by left.
  - intros r Hr. split.
    + apply elem_of_cons in Hr as [->|Hr]; [done|].
      apply StronglySorted_cons in Hs as [Hall _].
      by apply (proj1 (list.Forall_forall _ _) Hall r).
    + apply last_Some in Hlast as [l' Hl']. rewrite Hl' in Hs, Hr.
      apply elem_of_app in Hr as [Hr|Hr%list_elem_of_singleton];
        [|by subst].
      apply (StronglySorted_app_1_elem_of le_value l' [final]); [done..|].
      by left.
Qed.

(** X8.  In a reachable container, after [Insert] of a key that no
    record holds, [GetLowest] returns the smaller of the inserted value
    and the lowest value before, and [GetHighest] the larger of the
    inserted value and the highest value before; on a container that was
    empty both return the inserted value. *)
Theorem Insert_extremes ol key value :
  reachable ol → key ∉ Key <$> Rec ol →
  ∃ ol1,
    Insert key value ol = Returns nil_error ol1 ∧
    (Rec ol = [] →
     GetLowest ol1 = Returns value ol1 ∧ GetHighest ol1 = Returns value ol1) ∧
    (∀ lo hi,
       GetLowest ol = Returns lo ol → GetHighest ol = Returns hi ol →
       GetLowest ol1 = Returns (N.min value lo) ol1 ∧
       GetHighest ol1 = Returns (N.max value hi) ol1).
Proof.
  intros Hwf%reachable_wf Hnot. pose proof Hwf as (Hs & Hc & _).
  pose proof (proj2 (consistent_map_get_false ol key Hc) Hnot) as Hget.
  pose proof (Insert_state_wf key value ol Hwf) as (Hs1 & _ & _).
  exists (Insert_state key value ol). rewrite Insert_Returns, Hget.
  assert (Hin : ∀ r, r ∈ Rec (Insert_state key value ol) ↔
                     r = mkRecord key value ∨ r ∈ Rec ol).
  { intros r. unfold Insert_state. rewrite Hget. simpl.
    apply elem_of_insert_at. }
  destruct (wf_extremes _ Hs1) as (f1 & l1 & -> & -> & Hf1 & Hl1 & Hb1).
  { intros Hnil. pose proof (proj2 (Hin (mkRecord key value)) (or_introl eq_refl)) as H.
    rewrite Hnil in H. by apply elem_of_nil in H. }
  pose proof (Hb1 _ (proj2 (Hin (mkRecord key value)) (or_introl eq_refl))) as Hnew.
  simpl in Hnew.
  apply Hin in Hf1. apply Hin in Hl1.
  split; [done|]. split.
  - intros Hnil. rewrite Hnil in Hf1, Hl1.
    destruct Hf1 as [->|Hf1]; [|by apply elem_of_nil in Hf1].
    destruct Hl1 as [->|Hl1]; [|by apply elem_of_nil in Hl1]. done.
  - intros lo hi Hlo Hhi.
    destruct (wf_extremes ol Hs) as (f & l & Hf & Hl & Hfin & Hlin & Hb).
    { intros Hnil. rewrite GetLowest_Returns, Hnil in Hlo. done. }
    rewrite Hf in Hlo. rewrite Hl in Hhi.
    injection Hlo as <-. injection Hhi as <-.
    pose proof (Hb1 f (proj2 (Hin f) (or_intror Hfin))) as Hf'.
    pose proof (Hb1 l (proj2 (Hin l) (or_intror Hlin))) as Hl'.
    split; f_equal.
    + destruct Hf1 as [->|Hf1]; simpl in *.
      * rewrite N.min_l; [done|lia].
      * pose proof (Hb f1 Hf1). rewrite N.min_r; lia.
    + destruct Hl1 as [->|Hl1]; simpl in *.
      * rewrite N.max_l; [done|lia].
      * pose proof (Hb l1 Hl1). rewrite N.max_r; lia.
Qed.

Lemma Insert_extremes_witness :
  let ol := exec (Insert "a" 9) (exec (Insert "b" 4) New) in
  reachable ol ∧ ("c" ∉ Key <$> Rec ol) ∧
  GetLowest ol = Returns 4%N ol ∧ GetHighest ol = Returns 9%N ol ∧
  ∃ ol1,
    Insert "c" 2 ol = Returns nil_error ol1 ∧
    GetLowest ol1 = Returns (N.min 2 4) ol1 ∧
    GetHighest ol1 = Returns (N.max 2 9) ol1.
Proof.
  intros ol.
  assert (Hr : reachable ol)
    by (do 2 apply reachable_Insert; apply reachable_New).
  assert (Hc : "c" ∉ Key <$> Rec ol)
    by (apply (bool_decide_unpack _); reflexivity).
  split; [exact Hr|]. split; [exact Hc|].
  split; [reflexivity|]. split; [reflexivity|].
  destruct (Insert_extremes ol "c" 2%N Hr Hc) as (ol1 & Hins & _ & Hext).
  exists ol1. split; [exact Hins|].
  apply (Hext 4%N 9%N); reflexivity.
Defined.

(** ** Calls that commute *)

Lemma map_get_Insert_state_ne key value ol k :
  k ≠ key →
  map_get (Bookkeeping (Insert_state key value ol)) k =
    map_get (Bookkeeping ol) k.
Proof.
  intros Hne. unfold Insert_state.
  destruct (map_get (Bookkeeping ol) key); [done|].
  unfold map_get. simpl. by rewrite lookup_insert_ne.
Qed.




Lemma Remove_state_alt key ol :
  Remove_state key ol =
    mkOrderedList
      (if find_key key (Rec ol) is Some _ then delete key (Bookkeeping ol)
       else Bookkeeping ol)
      (remove_first key (Rec ol)).
Proof.
  rewrite <- Remove_state_remove_first. unfold Remove_state.
  destruct (find_key key (Rec ol)) as [[i r]|]; [done|]. by destruct ol.
Qed.

Lemma find_key_remove_first_ne key k recs :
  k ≠ key →
  is_Some (find_key key (remove_first k recs)) ↔ is_Some (find_key key recs).
Proof.
  intros Hne.
  assert (∀ l, is_Some (find_key key l) ↔
               is_Some (head (filter (λ x, Key x = key) l))) as Hhead.
  { intros l. rewrite <- find_key_head_filter.
    destruct (find_key key l) as [[i r]|]; simpl; split; intros [? ?]; by eauto. }
  by rewrite !Hhead, filter_remove_first.
Qed.

Lemma Remove_state_comm ol k1 k2 :
  k1 ≠ k2 →
  Remove_state k2 (Remove_state k1 ol) = Remove_state k1 (Remove_state k2 ol).
Proof.
  intros Hne. rewrite !Remove_state_alt. simpl.
  pose proof (find_key_remove_first_ne k2 k1 (Rec ol) Hne) as H2.
  pose proof (find_key_remove_first_ne k1 k2 (Rec ol) (not_eq_sym Hne)) as H1.
  rewrite remove_first_comm. f_equal.
  destruct (find_key k1 (Rec ol)) as [x1|];
    destruct (find_key k2 (Rec ol)) as [x2|];
    destruct (find_key k2 (remove_first k1 (Rec ol))) as [y2|];
    destruct (find_key k1 (remove_first k2 (Rec ol))) as [y1|];
    try done;
    try (by destruct (proj1 H1 (mk_is_Some _ _ eq_refl)));
    try (by destruct (proj2 H1 (mk_is_Some _ _ eq_refl)));
    try (by destruct (proj1 H2 (mk_is_Some _ _ eq_refl)));
    try (by destruct (proj2 H2 (mk_is_Some _ _ eq_refl))).
  apply delete_delete.
Qed.

(** X10.  On any container state, two [Remove] calls with different keys
    commute: in either order each call returns the same error and the
    container ends in the same state. *)
Theorem Remove_commute ol k1 k2 :
  k1 ≠ k2 →
  ∃ e1 e2 o1 o2 o',
    Remove k1 ol = Returns e1 o1 ∧ Remove k2 o1 = Returns e2 o' ∧
    Remove k2 ol = Returns e2 o2 ∧ Remove k1 o2 = Returns e1 o'.
Proof.
  intros Hne.
  pose proof (find_key_remove_first_ne k2 k1 (Rec ol) Hne) as H2.
  pose proof (find_key_remove_first_ne k1 k2 (Rec ol) (not_eq_sym Hne)) as H1.
  rewrite <- !Remove_state_remove_first in H1, H2.
  eexists _, _, _, _, _.
  split_and!; [apply Remove_Returns| |apply Remove_Returns|].
  - rewrite Remove_Returns. f_equal.
    destruct (find_key k2 (Rec (Remove_state k1 ol)));
      destruct (find_key k2 (Rec ol)); try done.
    + by destruct (proj1 H2 (mk_is_Some _ _ eq_refl)).
    + by destruct (proj2 H2 (mk_is_Some _ _ eq_refl)).
  - rewrite Remove_Returns, Remove_state_comm by done. f_equal.
    destruct (find_key k1 (Rec (Remove_state k2 ol)));
      destruct (find_key k1 (Rec ol)); try done.
    + by destruct (proj1 H1 (mk_is_Some _ _ eq_refl)).
    + by destruct (proj2 H1 (mk_is_Some _ _ eq_refl)).
Qed.

Lemma Remove_commute_witness :
  let ol := exec (Insert "c" 4) (exec (Insert "a" 9) (exec (Insert "b" 4) New)) in
  "a" ≠ "d" ∧
  ∃ e1 e2 o1 o2 o',
    Remove "a" ol = Returns e1 o1 ∧ Remove "d" o1 = Returns e2 o' ∧
    Remove "d" ol = Returns e2 o2 ∧ Remove "a" o2 = Returns e1 o'.
Proof.
  intros ol.
  assert (Hk : "a" ≠ "d") by (apply (bool_decide_unpack _); reflexivity).
  split; [exact Hk|]. apply (Remove_commute ol "a" "d" Hk).
Defined.

(** ** More on [Merge] *)

Lemma map_get_Insert_state_mono key value ol k :
  map_get (Bookkeeping ol) k = true →
  map_get (Bookkeeping (Insert_state key value ol)) k = true.
Proof.
  intros Hk. destruct (decide (k = key)) as [->|Hne].
  - unfold Insert_state. by rewrite Hk.
  - by rewrite map_get_Insert_state_ne.
Qed.

Lemma map_get_Insert_state_eq key value ol :
  map_get (Bookkeeping (Insert_state key value ol)) key = true.
Proof.
  unfold Insert_state.
  destruct (map_get (Bookkeeping ol) key) eqn:Hget; [done|].
  unfold map_get. simpl. by rewrite lookup_insert_eq.
Qed.

Lemma replay_mono recs ol k :
  map_get (Bookkeeping ol) k = true →
  map_get (Bookkeeping (replay recs ol)) k = true.
Proof.
  revert ol. induction recs as [|rc recs IH]; intros ol Hk; [done|].
  simpl. apply IH. rewrite exec_Insert. by apply map_get_Insert_state_mono.
Qed.

Lemma replay_marks recs ol rc :
  rc ∈ recs → map_get (Bookkeeping (replay recs ol)) (Key rc) = true.
Proof.
  revert ol. induction recs as [|x recs IH]; intros ol Hin.
  - by apply elem_of_nil in Hin.
  - simpl. rewrite exec_Insert.
    apply elem_of_cons in Hin as [->|Hin]; [|by apply IH].
    apply replay_mono, map_get_Insert_state_eq.
Qed.

(** X11.  For reachable receiver and source, [Merge] is idempotent:
    merging the same source a second time changes nothing. *)
Theorem Merge_idempotent (σ : store) p q r s :
  σ !! p = Some r → σ !! q = Some s →
  reachable r → reachable s →
  ∃ σ1, Merge p q σ = Returns tt σ1 ∧ Merge p q σ1 = Returns tt σ1.
Proof.
  intros Hp Hq Hr%reachable_wf Hs%reachable_wf.
  exists (<[p := replay (Rec s) r]> σ).
  split; [by apply Merge_Returns|].
  assert (Hq1 : <[p := replay (Rec s) r]> σ !! q = Some s).
  { destruct (decide (p = q)) as [->|Hne].
    - assert (r = s) as -> by congruence.
      by rewrite Merge_self, lookup_insert_eq.
    - by rewrite lookup_insert_ne. }
  rewrite (Merge_Returns p q _ (replay (Rec s) r) s);
    [|apply lookup_insert_eq|done].
  rewrite insert_insert_eq. do 2 f_equal.
  apply replay_present. intros rc Hrc. by apply replay_marks.
Qed.

Lemma Merge_idempotent_witness :
  let r := exec (Insert "a" 1) New in
  let s := exec (Insert "b" 3) (exec (Insert "a" 2) New) in
  let σ : store := <[2%positive := s]> (<[1%positive := r]> ∅) in
  reachable r ∧ reachable s ∧
  ∃ σ1, Merge 1%positive 2%positive σ = Returns tt σ1 ∧
        Merge 1%positive 2%positive σ1 = Returns tt σ1.
Proof.
  intros r s σ.
  assert (Hr : reachable r) by (apply reachable_Insert, reachable_New).
  assert (Hs : reachable s)
    by (do 2 apply reachable_Insert; apply reachable_New).
  split; [exact Hr|]. split; [exact Hs|].
  apply (Merge_idempotent σ 1%positive 2%positive r s eq_refl eq_refl Hr Hs).
Defined.



(** ** The reachable states *)


